(** * linkedlist.h: a heap model of the singly linked list and its operations

    The C header manipulates [Cell_t] and [LinkedList_t] objects through
    pointers.  The embedding keeps that shape: a memory is a finite map from
    addresses to live objects, every function is a computation in a small
    state-and-error monad over that memory, and every loop is a [Fixpoint]
    over an explicit fuel that mirrors the C loop condition and body.

    A pointer is an address ([N]); [NULL] is address 0.  Integers are [Z]
    with the wrap-around of their C type written out: [currentSize] is a
    [uint32_t], positions are [size_t] (64 bits), the loop counter is a
    [uint_fast32_t] (64 bits on the LP64 targets the header is built for). *)

From Stdlib Require Import ZArith Lia.
From stdpp Require Import gmap strings list.

Local Open Scope Z_scope.

(** ** Machine integers *)

Definition wrap32 (z : Z) : Z := z mod 2 ^ 32.
Definition wrap64 (z : Z) : Z := z mod 2 ^ 64.

Definition INT64_MAX : Z := 2 ^ 63 - 1.
Definition LIST_HEAD : Z := 0.
Definition LIST_TAIL : Z := INT64_MAX.

(** ** Objects and memory *)

Abbreviation ptr := N (only parsing).
Definition NULL : ptr := 0%N.

Record Cell_t : Type := mkCell { value : ptr; next : ptr }.

Record LinkedList_t : Type := mkList { head : ptr; currentSize : Z }.

Record Aux_Counter : Type := mkCounter { pivot : ptr; currentPosition : Z }.

Inductive object : Type :=
| OCell (c : Cell_t)
| OList (l : LinkedList_t).

Abbreviation mem := (gmap N object) (only parsing).

(** ** Outcomes and the monad

    [Done a m]: the call returned [a] and left memory [m].
    [Fault]: the call dereferenced [NULL] or an address that holds no live
    object of the expected type, or freed such an address (undefined
    behaviour in C).
    [OutOfFuel]: a loop was still running when the fuel ran out. *)

Inductive outcome (A : Type) : Type :=
| Done (a : A) (m : mem)
| Fault
| OutOfFuel.
Arguments Done {A} a m.
Arguments Fault {A}.
Arguments OutOfFuel {A}.

Definition M (A : Type) : Type := mem -> outcome A.

Definition ret {A} (a : A) : M A := fun m => Done a m.

Definition bind {A B} (c : M A) (k : A -> M B) : M B :=
  fun m => match c m with
           | Done a m' => k a m'
           | Fault => Fault
           | OutOfFuel => OutOfFuel
           end.

Definition timeout {A} : M A := fun _ => OutOfFuel.

Notation "x <- c1 ; c2" := (bind c1 (fun x => c2))
  (at level 20, c1 at level 100, c2 at level 200, only parsing).

(** ** Loads, stores, allocation *)

Definition load_cell (p : ptr) : M Cell_t :=
  fun m => if decide (p = NULL) then Fault
           else match m !! p with
                | Some (OCell c) => Done c m
                | _ => Fault
                end.

Definition store_cell (p : ptr) (c : Cell_t) : M unit :=
  fun m => if decide (p = NULL) then Fault
           else match m !! p with
                | Some (OCell _) => Done tt (<[p := OCell c]> m)
                | _ => Fault
                end.

Definition load_list (p : ptr) : M LinkedList_t :=
  fun m => if decide (p = NULL) then Fault
           else match m !! p with
                | Some (OList l) => Done l m
                | _ => Fault
                end.

Definition store_list (p : ptr) (l : LinkedList_t) : M unit :=
  fun m => if decide (p = NULL) then Fault
           else match m !! p with
                | Some (OList _) => Done tt (<[p := OList l]> m)
                | _ => Fault
                end.

(** [p->value], [p->next], [l->head], [l->currentSize] as r-values. *)
Definition get_value (p : ptr) : M ptr := c <- load_cell p ; ret (value c).
Definition get_next (p : ptr) : M ptr := c <- load_cell p ; ret (next c).
Definition get_head (l : ptr) : M ptr := h <- load_list l ; ret (head h).
Definition get_size (l : ptr) : M Z := h <- load_list l ; ret (currentSize h).

(** [p->value = v], [p->next = q], [l->head = h], [l->currentSize = s]. *)
Definition set_value (p v : ptr) : M unit :=
  c <- load_cell p ; store_cell p (mkCell v (next c)).
Definition set_next (p q : ptr) : M unit :=
  c <- load_cell p ; store_cell p (mkCell (value c) q).
Definition set_head (l h : ptr) : M unit :=
  r <- load_list l ; store_list l (mkList h (currentSize r)).
Definition set_size (l : ptr) (s : Z) : M unit :=
  r <- load_list l ; store_list l (mkList (head r) s).

(** [malloc] returns a non-null address that holds no live object. *)
Definition fresh_addr (m : mem) : ptr := fresh ({[NULL]} ∪ dom m).

(** [free(p)]: [free(NULL)] does nothing; freeing a live object removes it;
    anything else is undefined behaviour. *)
Definition free (p : ptr) : M unit :=
  fun m => if decide (p = NULL) then Done tt m
           else match m !! p with
                | Some _ => Done tt (delete p m)
                | None => Fault
                end.

Section LinkedList.

(** [malloc] does not initialise the block it returns.  What a fresh block
    holds is whatever the allocator left there: [uninit_cell m] and
    [uninit_list m] are the contents of the block handed out in memory [m].
    Everything below is parametric in them. *)
Variable uninit_cell : mem -> Cell_t.
Variable uninit_list : mem -> LinkedList_t.

Definition malloc_cell : M ptr :=
  fun m => let a := fresh_addr m in Done a (<[a := OCell (uninit_cell m)]> m).

Definition malloc_list : M ptr :=
  fun m => let a := fresh_addr m in Done a (<[a := OList (uninit_list m)]> m).

(** ** The operations of linkedlist.h *)

(** [Empty]: [list->head == NULL && list->currentSize == 0]. *)
Definition Empty (list : ptr) : M bool :=
  h <- get_head list ;
  if decide (h = NULL) then
    s <- get_size list ; ret (bool_decide (s = 0))
  else ret false.

(** [PushBack]: [while (counter.pivot->next != NULL)]. *)
Fixpoint PushBack_loop (fuel : nat) (counter : Aux_Counter) : M Aux_Counter :=
  nx <- get_next (pivot counter) ;
  if decide (nx = NULL) then ret counter
  else match fuel with
       | O => timeout
       | S fuel' =>
           nx' <- get_next (pivot counter) ;
           PushBack_loop fuel' (mkCounter nx' (wrap64 (currentPosition counter + 1)))
       end.

Definition PushBack (fuel : nat) (list : ptr) (val : ptr) : M unit :=
  currentCell <- malloc_cell ;
  _ <- set_value currentCell val ;
  _ <- set_next currentCell NULL ;
  h <- get_head list ;
  if decide (h = NULL) then
    _ <- set_head list currentCell ;
    set_size list 1
  else
    counter <- PushBack_loop fuel (mkCounter h 0) ;
    _ <- set_next (pivot counter) currentCell ;
    s <- get_size list ;
    set_size list (wrap32 (s + 1)).

Definition PushFront (list : ptr) (val : ptr) : M unit :=
  currentCell <- malloc_cell ;
  _ <- set_value currentCell val ;
  _ <- set_next currentCell NULL ;
  h <- get_head list ;
  if decide (h = NULL) then
    _ <- set_head list currentCell ;
    set_size list 1
  else
    h' <- get_head list ;
    _ <- set_next currentCell h' ;
    _ <- set_head list currentCell ;
    s <- get_size list ;
    set_size list (wrap32 (s + 1)).

(** [Free]: the loop releases every cell but the one it stops on. *)
Fixpoint Free_loop (fuel : nat) (counter : Aux_Counter) : M unit :=
  nx <- get_next (pivot counter) ;
  if decide (nx = NULL) then ret tt
  else match fuel with
       | O => timeout
       | S fuel' =>
           let current := pivot counter in
           nx' <- get_next (pivot counter) ;
           _ <- free current ;
           Free_loop fuel' (mkCounter nx' (currentPosition counter))
       end.

Definition Free (fuel : nat) (list : ptr) : M unit :=
  h <- get_head list ;
  if decide (h = NULL) then free list
  else
    h' <- get_head list ;
    _ <- Free_loop fuel (mkCounter h' 0) ;
    _ <- set_size list 0 ;
    free list.

(** [if (position == LIST_TAIL) position = list->currentSize - 1;]
    The subtraction is done on [uint32_t]. *)
Definition resolve_tail (list : ptr) (position : Z) : M Z :=
  if decide (position = LIST_TAIL) then
    s <- get_size list ; ret (wrap32 (s - 1))
  else ret position.

(** [position < 0 || position > list->currentSize - 1] *)
Definition out_of_bounds (list : ptr) (position : Z) : M bool :=
  s <- get_size list ;
  ret (bool_decide (position < 0) || bool_decide (position > wrap32 (s - 1))).

(** [while (counter.currentPosition != position)] of [RemoveAt] and
    [InsertAt], which also remembers the cell before the pivot. *)
Fixpoint walk_before (fuel : nat) (position : Z) (beforeTarget : ptr)
    (counter : Aux_Counter) : M (ptr * Aux_Counter) :=
  if decide (currentPosition counter = position) then ret (beforeTarget, counter)
  else match fuel with
       | O => timeout
       | S fuel' =>
           let beforeTarget' := pivot counter in
           nx <- get_next (pivot counter) ;
           walk_before fuel' position beforeTarget'
             (mkCounter nx (wrap64 (currentPosition counter + 1)))
       end.

Definition RemoveAt (fuel : nat) (list : ptr) (position : Z) : M unit :=
  position <- resolve_tail list position ;
  e <- Empty list ;
  if e then ret tt
  else
    oob <- out_of_bounds list position ;
    if oob then ret tt
    else
      h <- get_head list ;
      bc <- walk_before fuel position NULL (mkCounter h 0) ;
      let beforeTarget := fst bc in
      let counter := snd bc in
      afterTarget <- get_next (pivot counter) ;
      _ <- set_next beforeTarget afterTarget ;
      free (pivot counter).

Definition InsertAt (fuel : nat) (list : ptr) (position : Z) (val : ptr) : M unit :=
  position <- resolve_tail list position ;
  currentCell <- malloc_cell ;
  _ <- set_value currentCell val ;
  _ <- set_next currentCell NULL ;
  oob <- out_of_bounds list position ;
  if oob then ret tt
  else
    e <- Empty list ;
    if e && bool_decide (position ≠ 0) then ret tt
    else if decide (position = 0) then PushFront list val
    else
      s <- get_size list ;
      if decide (position = s) then PushBack fuel list val
      else
        h <- get_head list ;
        bc <- walk_before fuel position NULL (mkCounter h 0) ;
        let beforeTarget := fst bc in
        let counter := snd bc in
        _ <- set_next beforeTarget currentCell ;
        _ <- set_next currentCell (pivot counter) ;
        s' <- get_size list ;
        set_size list (wrap32 (s' + 1)).

(** [GetAt]: [while (counter.currentPosition != position)]. *)
Fixpoint GetAt_loop (fuel : nat) (position : Z) (counter : Aux_Counter)
    : M Aux_Counter :=
  if decide (currentPosition counter = position) then ret counter
  else match fuel with
       | O => timeout
       | S fuel' =>
           nx <- get_next (pivot counter) ;
           GetAt_loop fuel' position
             (mkCounter nx (wrap64 (currentPosition counter + 1)))
       end.

Definition GetAt (fuel : nat) (list : ptr) (position : Z) : M ptr :=
  position <- resolve_tail list position ;
  oob <- out_of_bounds list position ;
  if oob then ret NULL
  else
    e <- Empty list ;
    if e && bool_decide (position ≠ 0) then ret NULL
    else if decide (position = 0) then get_head list
    else
      h <- get_head list ;
      counter <- GetAt_loop fuel position (mkCounter h 0) ;
      ret (pivot counter).

(** [Reserve]: [while (counter.currentPosition != positions - 1)], the
    subtraction done on [size_t]. *)
Fixpoint Reserve_loop (fuel : nat) (positions : Z) (counter : Aux_Counter)
    : M Aux_Counter :=
  if decide (currentPosition counter = wrap64 (positions - 1)) then ret counter
  else match fuel with
       | O => timeout
       | S fuel' =>
           c <- malloc_cell ;
           _ <- set_next (pivot counter) c ;
           nx <- get_next (pivot counter) ;
           _ <- set_value nx NULL ;
           Reserve_loop fuel' positions
             (mkCounter nx (wrap64 (currentPosition counter + 1)))
       end.

Definition Reserve (fuel : nat) (positions : Z) : M ptr :=
  list <- malloc_list ;
  c <- malloc_cell ;
  _ <- set_head list c ;
  h <- get_head list ;
  _ <- Reserve_loop fuel positions (mkCounter h 0) ;
  _ <- set_size list (wrap32 positions) ;
  ret list.

(** [DryNulls]: [while (counter.currentPosition != list->currentSize)].
    [fuel] is what each [PushBack] and the final [Free] get; [n] bounds
    the loop itself. *)
Fixpoint DryNulls_loop (fuel n : nat) (list newList : ptr)
    (counter : Aux_Counter) : M unit :=
  s <- get_size list ;
  if decide (currentPosition counter = s) then ret tt
  else match n with
       | O => timeout
       | S n' =>
           v <- get_value (pivot counter) ;
           _ <- (if decide (v ≠ NULL) then
                   v' <- get_value (pivot counter) ;
                   PushBack fuel newList v'
                 else ret tt) ;
           nx <- get_next (pivot counter) ;
           DryNulls_loop fuel n' list newList
             (mkCounter nx (wrap64 (currentPosition counter + 1)))
       end.

Definition DryNulls (fuel : nat) (list : ptr) : M ptr :=
  h <- get_head list ;
  newList <- malloc_list ;
  _ <- DryNulls_loop fuel fuel list newList (mkCounter h 0) ;
  _ <- Free fuel list ;
  ret newList.

Definition RetrieveFront (list : ptr) : M ptr :=
  e <- Empty list ;
  if e then ret NULL
  else
    firstCell <- get_head list ;
    h <- get_head list ;
    nx <- get_next h ;
    _ <- set_head list nx ;
    _ <- set_next firstCell NULL ;
    s <- get_size list ;
    _ <- set_size list (wrap32 (s - 1)) ;
    ret firstCell.

(** [RetrieveBack]: [while (counter.pivot->next != NULL)]. *)
Fixpoint RetrieveBack_loop (fuel : nat) (beforeTarget : ptr)
    (counter : Aux_Counter) : M (ptr * Aux_Counter) :=
  nx <- get_next (pivot counter) ;
  if decide (nx = NULL) then ret (beforeTarget, counter)
  else match fuel with
       | O => timeout
       | S fuel' =>
           let beforeTarget' := pivot counter in
           nx' <- get_next (pivot counter) ;
           RetrieveBack_loop fuel' beforeTarget'
             (mkCounter nx' (wrap64 (currentPosition counter + 1)))
       end.

Definition RetrieveBack (fuel : nat) (list : ptr) : M ptr :=
  e <- Empty list ;
  if e then ret NULL
  else
    h <- get_head list ;
    bc <- RetrieveBack_loop fuel NULL (mkCounter h 0) ;
    let beforeTarget := fst bc in
    let counter := snd bc in
    _ <- set_next beforeTarget NULL ;
    _ <- set_next (pivot counter) NULL ;
    s <- get_size list ;
    _ <- set_size list (wrap32 (s - 1)) ;
    ret (pivot counter).

(** A client that pushes [vs] at the back, first element first. *)
Fixpoint PushBack_all (fuel : nat) (list : ptr) (vs : Datatypes.list ptr) : M unit :=
  match vs with
  | [] => ret tt
  | v :: vs' => _ <- PushBack fuel list v ; PushBack_all fuel list vs'
  end.

(** A client that pushes at either end, in the order given. *)
Inductive push_op : Type :=
| AtFront (v : ptr)
| AtBack (v : ptr).

Fixpoint Push_all (fuel : nat) (list : ptr) (ops : Datatypes.list push_op) : M unit :=
  match ops with
  | [] => ret tt
  | AtFront v :: ops' => _ <- PushFront list v ; Push_all fuel list ops'
  | AtBack v :: ops' => _ <- PushBack fuel list v ; Push_all fuel list ops'
  end.

(** A client that calls [RetrieveFront] [n] times and collects the cells
    returned, first call first. *)
Fixpoint RetrieveFront_all (n : nat) (list : ptr) : M (Datatypes.list ptr) :=
  match n with
  | O => ret []
  | S n' =>
      c <- RetrieveFront list ;
      rest <- RetrieveFront_all n' list ;
      ret (c :: rest)
  end.

(** [Pprint].  What it writes is kept as the sequence of its [printf]
    calls, each with the format literal of the source and the arguments
    passed. *)
Inductive printf_arg : Type :=
| AInt (z : Z)
| APtr (p : ptr)
| AStr (s : string).

Record printf_call : Type := mkPrintf { format : string; args : Datatypes.list printf_arg }.

Definition newline : string := String (Ascii.ascii_of_nat 10) EmptyString.

(** [while (counter.pivot != NULL)] *)
Fixpoint Pprint_loop (fuel : nat) (counter : Aux_Counter)
    : M (Datatypes.list printf_call) :=
  if decide (pivot counter = NULL) then ret []
  else match fuel with
       | O => timeout
       | S fuel' =>
           v <- get_value (pivot counter) ;
           nx <- get_next (pivot counter) ;
           let call :=
             mkPrintf "{ value = %p, index = %ld }%s"
               [APtr v; AInt (currentPosition counter);
                AStr (if decide (nx = NULL) then String.append "]" newline
                      else ", ")] in
           nx' <- get_next (pivot counter) ;
           rest <- Pprint_loop fuel'
                     (mkCounter nx' (wrap64 (currentPosition counter + 1))) ;
           ret (call :: rest)
       end.

Definition Pprint (fuel : nat) (list : ptr) : M (Datatypes.list printf_call) :=
  h <- get_head list ;
  s <- get_size list ;
  let size_line := mkPrintf (String.append "List size: %d" newline) [AInt s] in
  let opening := mkPrintf "[" [] in
  rest <- Pprint_loop fuel (mkCounter h 0) ;
  ret (size_line :: opening :: rest).

End LinkedList.

(** ** The structural invariant *)

(** [lseg m p q cs]: following [next] from [p] visits exactly the cells
    [cs] (address and stored value, in order) and then arrives at [q]. *)
Fixpoint lseg (m : mem) (p q : ptr) (cs : list (ptr * ptr)) : Prop :=
  match cs with
  | [] => p = q
  | c :: cs' =>
      p = c.1 ∧ p ≠ NULL ∧
      ∃ nx, m !! p = Some (OCell (mkCell c.2 nx)) ∧ lseg m nx q cs'
  end.

(** The chain from [p] is [cs] and ends in an absent [next]. *)
Definition chain (m : mem) (p : ptr) (cs : list (ptr * ptr)) : Prop :=
  lseg m p NULL cs.

(** [list] points to a live header whose chain is [cs] and whose
    [currentSize] is the number of cells of [cs]. *)
Definition is_list (m : mem) (list : ptr) (cs : Datatypes.list (ptr * ptr)) : Prop :=
  list ≠ NULL ∧
  ∃ h, m !! list = Some (OList (mkList h (Z.of_nat (length cs)))) ∧ chain m h cs.

(** The same, with [currentSize] holding the number of cells modulo 2^32,
    which is what the [uint32_t] field holds of a chain of any length. *)
Definition is_list_mod32 (m : mem) (list : ptr) (cs : Datatypes.list (ptr * ptr)) : Prop :=
  list ≠ NULL ∧
  ∃ h, m !! list = Some (OList (mkList h (wrap32 (Z.of_nat (length cs))))) ∧
       chain m h cs.

(** The invariant as the data model words it: [size == 0] iff [head] is
    absent, and the chain from [head] has exactly [size] cells and ends in
    an absent [next]. *)
Definition invariant (m : mem) (list : ptr) : Prop :=
  list ≠ NULL ∧
  ∃ h s, m !! list = Some (OList (mkList h s)) ∧
         (s = 0 ↔ h = NULL) ∧
         ∃ cs, chain m h cs ∧ Z.of_nat (length cs) = s.

(** Address of the last cell of a chain ([NULL] for no cell) and of the
    cell at an index. *)
Definition last_addr (cs : list (ptr * ptr)) : ptr :=
  match last cs with Some c => c.1 | None => NULL end.

Definition addr_at (cs : list (ptr * ptr)) (i : nat) : ptr :=
  match cs !! i with Some c => c.1 | None => NULL end.

(** The position a call works with once [LIST_TAIL] has been replaced, for
    a list of [n] cells. *)
Definition resolved (n : nat) (position : Z) : Z :=
  if decide (position = LIST_TAIL) then wrap32 (Z.of_nat n - 1) else position.

(** An executable walk of the chain: the cells met from [p], or [None] when
    the walk leaves the live cells or outlasts the fuel. *)
Fixpoint cells_from (fuel : nat) (m : mem) (p : ptr) : option (list (ptr * ptr)) :=
  if decide (p = NULL) then Some []
  else match fuel with
       | O => None
       | S fuel' =>
           match m !! p with
           | Some (OCell c) =>
               match cells_from fuel' m (next c) with
               | Some cs => Some ((p, value c) :: cs)
               | None => None
               end
           | _ => None
           end
       end.

(** The invariant as a check that runs: the header is live, and walking
    [currentSize] cells from [head] ends on [NULL] having met exactly
    [currentSize] cells. *)
Definition invariant_check (m : mem) (list : ptr) : bool :=
  bool_decide (list ≠ NULL) &&
  match m !! list with
  | Some (OList l) =>
      match cells_from (Z.to_nat (currentSize l)) m (head l) with
      | Some cs => bool_decide (Z.of_nat (length cs) = currentSize l)
      | None => false
      end
  | _ => false
  end.

(** ** Allocators and memories used in the examples *)

(** An allocator whose blocks happen to be zero-filled, and one that hands
    out recycled blocks still holding old contents. *)
Definition zeroed_cell : mem -> Cell_t := fun _ => mkCell NULL NULL.
Definition zeroed_list : mem -> LinkedList_t := fun _ => mkList NULL 0.
Definition stale_cell : mem -> Cell_t := fun _ => mkCell 77%N 99%N.
Definition stale_list : mem -> LinkedList_t := fun _ => mkList 99%N 7.

(** An empty list whose header is at address 1. *)
Definition mem_empty : mem := {[ 1%N := OList (mkList NULL 0) ]}.

(** The one-cell list [10]. *)
Definition mem_10 : mem :=
  {[ 1%N := OList (mkList 2%N 1); 2%N := OCell (mkCell 10%N NULL) ]}.

(** The list [5, 10, 20] that [PushBack 10], [PushBack 20], [PushFront 5]
    build from [mem_empty]: header at 1, cells at 4, 2, 3. *)
Definition mem_5_10_20 : mem :=
  {[ 1%N := OList (mkList 4%N 3);
     2%N := OCell (mkCell 10%N 3%N);
     3%N := OCell (mkCell 20%N NULL);
     4%N := OCell (mkCell 5%N 2%N) ]}.

(** The five-cell list [11, absent, 12, absent, 13]. *)
Definition mem_with_nulls : mem :=
  {[ 1%N := OList (mkList 2%N 5);
     2%N := OCell (mkCell 11%N 3%N);
     3%N := OCell (mkCell NULL 4%N);
     4%N := OCell (mkCell 12%N 5%N);
     5%N := OCell (mkCell NULL 6%N);
     6%N := OCell (mkCell 13%N NULL) ]}.

(** One more value than a [uint32_t] can count. *)
Definition over_uint32 : nat := Z.to_nat (2 ^ 32 + 1).

(** The values a list holds, front to back, after the pushes [ops] on a
    list holding [vs]. *)
Definition push_value (vs : list ptr) (op : push_op) : list ptr :=
  match op with
  | AtFront v => v :: vs
  | AtBack v => vs ++ [v]
  end.

Definition pushed (vs : list ptr) (ops : list push_op) : list ptr :=
  fold_left push_value ops vs.

(** The [printf] calls of the loop of [Pprint] over the cells [cs], the
    first of them at index [k]. *)
Fixpoint printed_cells (k : Z) (cs : list (ptr * ptr)) : list printf_call :=
  match cs with
  | [] => []
  | c :: cs' =>
      mkPrintf "{ value = %p, index = %ld }%s"
        [APtr c.2; AInt k;
         AStr (match cs' with
               | [] => String.append "]" newline
               | _ => ", "
               end)]
      :: printed_cells (k + 1) cs'
  end.

(** Discharges [is_list] on a memory given cell by cell. *)
Ltac concrete_is_list h :=
  split; [discriminate|]; exists h; split; [reflexivity|];
  unfold chain; simpl;
  repeat (split; [reflexivity|]; split; [discriminate|];
          eexists; split; [reflexivity|]);
  reflexivity.

(** ** Stepping through the monad *)

Lemma bind_Done {A B} (c : M A) (k : A -> M B) m a m' :
  c m = Done a m' -> bind c k m = k a m'.
Proof. unfold bind. intros ->. reflexivity. Qed.

Lemma load_cell_Done m p c :
  p ≠ NULL -> m !! p = Some (OCell c) -> load_cell p m = Done c m.
Proof. intros Hp Hm. unfold load_cell. rewrite decide_False by done. by rewrite Hm. Qed.

Lemma load_list_Done m p l :
  p ≠ NULL -> m !! p = Some (OList l) -> load_list p m = Done l m.
Proof. intros Hp Hm. unfold load_list. rewrite decide_False by done. by rewrite Hm. Qed.

Lemma get_value_Done m p c :
  p ≠ NULL -> m !! p = Some (OCell c) -> get_value p m = Done (value c) m.
Proof. intros. unfold get_value. by erewrite bind_Done by by apply load_cell_Done. Qed.

Lemma get_next_Done m p c :
  p ≠ NULL -> m !! p = Some (OCell c) -> get_next p m = Done (next c) m.
Proof. intros. unfold get_next. by erewrite bind_Done by by apply load_cell_Done. Qed.

Lemma get_head_Done m p l :
  p ≠ NULL -> m !! p = Some (OList l) -> get_head p m = Done (head l) m.
Proof. intros. unfold get_head. by erewrite bind_Done by by apply load_list_Done. Qed.

Lemma get_size_Done m p l :
  p ≠ NULL -> m !! p = Some (OList l) -> get_size p m = Done (currentSize l) m.
Proof. intros. unfold get_size. by erewrite bind_Done by by apply load_list_Done. Qed.

Lemma set_value_Done m p c v :
  p ≠ NULL -> m !! p = Some (OCell c) ->
  set_value p v m = Done tt (<[p := OCell (mkCell v (next c))]> m).
Proof.
  intros Hp Hm. unfold set_value. erewrite bind_Done by by apply load_cell_Done.
  unfold store_cell. rewrite decide_False by done. by rewrite Hm.
Qed.

Lemma set_next_Done m p c q :
  p ≠ NULL -> m !! p = Some (OCell c) ->
  set_next p q m = Done tt (<[p := OCell (mkCell (value c) q)]> m).
Proof.
  intros Hp Hm. unfold set_next. erewrite bind_Done by by apply load_cell_Done.
  unfold store_cell. rewrite decide_False by done. by rewrite Hm.
Qed.

Lemma set_head_Done m p l h :
  p ≠ NULL -> m !! p = Some (OList l) ->
  set_head p h m = Done tt (<[p := OList (mkList h (currentSize l))]> m).
Proof.
  intros Hp Hm. unfold set_head. erewrite bind_Done by by apply load_list_Done.
  unfold store_list. rewrite decide_False by done. by rewrite Hm.
Qed.

Lemma set_size_Done m p l s :
  p ≠ NULL -> m !! p = Some (OList l) ->
  set_size p s m = Done tt (<[p := OList (mkList (head l) s)]> m).
Proof.
  intros Hp Hm. unfold set_size. erewrite bind_Done by by apply load_list_Done.
  unfold store_list. rewrite decide_False by done. by rewrite Hm.
Qed.

Lemma set_next_NULL_Fault m q : set_next NULL q m = Fault.
Proof. reflexivity. Qed.

Lemma fresh_addr_not_NULL (m : mem) : fresh_addr m ≠ NULL.
Proof.
  unfold fresh_addr. pose proof (is_fresh ({[NULL]} ∪ dom m)) as H. set_solver.
Qed.

Lemma fresh_addr_None (m : mem) : m !! fresh_addr m = None.
Proof.
  unfold fresh_addr. pose proof (is_fresh ({[NULL]} ∪ dom m)) as H.
  apply not_elem_of_dom. set_solver.
Qed.

Lemma Empty_Done m list l :
  list ≠ NULL -> m !! list = Some (OList l) ->
  Empty list m = Done (bool_decide (head l = NULL) && bool_decide (currentSize l = 0)) m.
Proof.
  intros Hp Hm. unfold Empty. erewrite bind_Done by by apply get_head_Done.
  destruct (decide (head l = NULL)) as [He|He].
  - erewrite bind_Done by by apply get_size_Done.
    by rewrite (bool_decide_eq_true_2 _ He).
  - by rewrite (bool_decide_eq_false_2 _ He).
Qed.

(** ** Segments and chains *)

Lemma lseg_cons (m : mem) p q c cs :
  lseg m p q (c :: cs) <->
  p = c.1 ∧ p ≠ NULL ∧
  ∃ nx, m !! p = Some (OCell (mkCell c.2 nx)) ∧ lseg m nx q cs.
Proof. reflexivity. Qed.

Lemma lseg_lookup m p q cs a :
  lseg m p q cs -> a ∈ cs.*1 -> a ≠ NULL ∧ ∃ c, m !! a = Some (OCell c).
Proof.
  revert p. induction cs as [|[a0 v0] cs IH]; intros p Hseg Hin; simpl in *.
  - by apply elem_of_nil in Hin.
  - destruct Hseg as (-> & Hnn & nx & Hlk & Hrest).
    apply elem_of_cons in Hin as [->|Hin]; [eauto | by eapply IH].
Qed.

Lemma lseg_frame m m' p q cs :
  lseg m p q cs -> (∀ a, a ∈ cs.*1 -> m' !! a = m !! a) -> lseg m' p q cs.
Proof.
  revert p. induction cs as [|[a0 v0] cs IH]; intros p Hseg Hsame; simpl in *.
  - done.
  - destruct Hseg as (-> & Hnn & nx & Hlk & Hrest).
    split; [done|]. split; [done|]. exists nx. split.
    + rewrite Hsame; [done | apply elem_of_cons; by left].
    + apply IH; [done|]. intros a Ha. apply Hsame, elem_of_cons. by right.
Qed.

Lemma lseg_insert_ne m p q cs a o :
  lseg m p q cs -> a ∉ cs.*1 -> lseg (<[a := o]> m) p q cs.
Proof.
  intros Hseg Hnin. eapply lseg_frame; [done|].
  intros b Hb. apply lookup_insert_ne. intros ->. done.
Qed.

Lemma lseg_insert_fresh m p q cs a o :
  lseg m p q cs -> m !! a = None -> lseg (<[a := o]> m) p q cs.
Proof.
  intros Hseg Hnone. apply lseg_insert_ne; [done|].
  intros Hin. destruct (lseg_lookup _ _ _ _ _ Hseg Hin) as (_ & c & Hc). congruence.
Qed.

Lemma lseg_insert_list m p q cs a l o :
  lseg m p q cs -> m !! a = Some (OList l) -> lseg (<[a := o]> m) p q cs.
Proof.
  intros Hseg Hl. apply lseg_insert_ne; [done|].
  intros Hin. destruct (lseg_lookup _ _ _ _ _ Hseg Hin) as (_ & c & Hc). congruence.
Qed.

Lemma lseg_delete_ne m p q cs a :
  lseg m p q cs -> a ∉ cs.*1 -> lseg (delete a m) p q cs.
Proof.
  intros Hseg Hnin. eapply lseg_frame; [done|].
  intros b Hb. apply lookup_delete_ne. intros ->. done.
Qed.

Lemma lseg_app m p q cs1 cs2 :
  lseg m p q (cs1 ++ cs2) <-> ∃ r, lseg m p r cs1 ∧ lseg m r q cs2.
Proof.
  revert p. induction cs1 as [|[a v] cs1 IH]; intros p; simpl.
  - split; [eauto | by intros (r & -> & H)].
  - split.
    + intros (-> & Hnn & nx & Hlk & Hrest). apply IH in Hrest as (r & H1 & H2).
      exists r. eauto 10.
    + intros (r & (-> & Hnn & nx & Hlk & H1) & H2).
      split; [done|]. split; [done|]. exists nx. split; [done|]. apply IH. eauto.
Qed.

Lemma chain_NULL m cs : chain m NULL cs -> cs = [].
Proof. destruct cs as [|c cs]; [done|]. by intros (_ & Hnn & _). Qed.

Lemma chain_nil_iff m p cs : chain m p cs -> (cs = [] ↔ p = NULL).
Proof.
  intros H. split.
  - intros ->. exact H.
  - intros ->. by eapply chain_NULL.
Qed.

(** A chain is determined by the memory and its first address. *)
Lemma chain_inj m p cs1 cs2 : chain m p cs1 -> chain m p cs2 -> cs1 = cs2.
Proof.
  unfold chain. revert p cs2. induction cs1 as [|[a v] cs1 IH]; intros p cs2 H1 H2.
  - simpl in H1. subst p. symmetry. by eapply chain_NULL.
  - destruct cs2 as [|[a2 v2] cs2].
    + simpl in H2. subst p. by destruct H1 as (_ & ? & _).
    + simpl in H1, H2.
      destruct H1 as (-> & _ & nx & Hlk & H1).
      destruct H2 as (Ha & _ & nx2 & Hlk2 & H2). subst a2.
      rewrite Hlk in Hlk2. injection Hlk2 as <- <-.
      f_equal. by eapply IH.
Qed.

(** No address occurs twice in a chain: a repeated address would give the
    same chain two different lengths. *)
Lemma chain_NoDup m p cs : chain m p cs -> NoDup cs.*1.
Proof.
  unfold chain. revert p. induction cs as [|[a v] cs IH]; intros p H; simpl.
  - constructor.
  - pose proof H as Hwhole.
    destruct H as (Hp & Hnn & nx & Hlk & Hrest). simpl in Hp. subst p.
    constructor; [|by eapply IH].
    intros Hin. apply list_elem_of_fmap in Hin as ([a' v'] & Ha & Hin).
    simpl in Ha. subst a'.
    apply list_elem_of_split in Hin as (l1 & l2 & ->).
    apply lseg_app in Hrest as (r & _ & Hsuf).
    assert (Hr : r = a) by (by destruct Hsuf as (? & _)). subst r.
    pose proof (chain_inj _ _ _ _ Hwhole Hsuf) as Heq.
    apply (f_equal length) in Heq. simpl in Heq.
    rewrite length_app in Heq. simpl in Heq. lia.
Qed.

Section Correctness.

Variable uninit_cell : mem -> Cell_t.
Variable uninit_list : mem -> LinkedList_t.

(** ** Straight-line facts *)

Lemma resolve_tail_Done m list l position :
  list ≠ NULL -> m !! list = Some (OList l) ->
  resolve_tail list position m =
  Done (if decide (position = LIST_TAIL) then wrap32 (currentSize l - 1)
        else position) m.
Proof.
  intros Hp Hm. unfold resolve_tail. destruct (decide (position = LIST_TAIL)); [|done].
  by erewrite bind_Done by by apply get_size_Done.
Qed.

Lemma out_of_bounds_Done m list l position :
  list ≠ NULL -> m !! list = Some (OList l) ->
  out_of_bounds list position m =
  Done (bool_decide (position < 0)
        || bool_decide (position > wrap32 (currentSize l - 1))) m.
Proof.
  intros Hp Hm. unfold out_of_bounds.
  by erewrite bind_Done by by apply get_size_Done.
Qed.

(** A fresh cell, once its two fields are written. *)
Lemma new_cell_Done {B} (k : ptr -> M B) m v q :
  (currentCell <- malloc_cell uninit_cell ;
   _ <- set_value currentCell v ;
   _ <- set_next currentCell q ;
   k currentCell) m
  = k (fresh_addr m) (<[fresh_addr m := OCell (mkCell v q)]> m).
Proof.
  pose proof (fresh_addr_not_NULL m) as Hnn.
  erewrite bind_Done by reflexivity.
  erewrite bind_Done by (apply set_value_Done; [done | apply lookup_insert_eq]).
  erewrite bind_Done by (apply set_next_Done; [done | apply lookup_insert_eq]).
  simpl. by rewrite !insert_insert_eq.
Qed.

Lemma is_list_nil m list :
  is_list m list [] <-> list ≠ NULL ∧ m !! list = Some (OList (mkList NULL 0)).
Proof.
  unfold is_list, chain. simpl. split.
  - intros (Hnn & h & Hlk & ->). done.
  - intros (Hnn & Hlk). eauto.
Qed.

Lemma PushFront_empty m list v :
  is_list m list [] ->
  PushFront uninit_cell list v m =
  Done tt (<[list := OList (mkList (fresh_addr m) 1)]>
             (<[fresh_addr m := OCell (mkCell v NULL)]> m)).
Proof.
  intros (Hnn & Hlk)%is_list_nil. unfold PushFront.
  rewrite new_cell_Done.
  pose proof (fresh_addr_None m) as Hfresh.
  assert (Hne : fresh_addr m ≠ list) by (intros E; rewrite E in Hfresh; congruence).
  erewrite bind_Done by (apply get_head_Done; [done | by rewrite lookup_insert_ne]).
  simpl.
  erewrite bind_Done by (apply set_head_Done; [done | by rewrite lookup_insert_ne]).
  erewrite set_size_Done by (done || apply lookup_insert_eq).
  simpl. by rewrite insert_insert_eq.
Qed.

(** ** [RemoveAt] on an empty list *)

(** C9. On an empty list [RemoveAt] returns at the [Empty] test, whatever
    the position argument is (the [LIST_TAIL] sentinel and positions beyond
    any size included): the call returns normally and the memory, hence the
    header with [head = NULL] and [currentSize = 0], is exactly what it
    was. *)
Theorem RemoveAt_empty_unchanged fuel (m : mem) list position :
  is_list m list [] -> RemoveAt fuel list position m = Done tt m.
Proof.
  intros (Hnn & Hlk)%is_list_nil. unfold RemoveAt.
  erewrite bind_Done by by apply resolve_tail_Done.
  by erewrite bind_Done by by apply Empty_Done.
Qed.

(** ** [InsertAt] at position 0 of an empty list *)

Lemma wrap32_minus_one : wrap32 (0 - 1) = 2 ^ 32 - 1.
Proof. reflexivity. Qed.

(** C7. [InsertAt(list, 0, v)] on an empty list returns normally and leaves
    a header with [currentSize = 1] whose [head] is a live cell holding [v]
    with an absent [next]. *)
Theorem InsertAt_zero_on_empty fuel (m : mem) list v :
  is_list m list [] ->
  ∃ m' c,
    InsertAt uninit_cell fuel list 0 v m = Done tt m' ∧
    m' !! list = Some (OList (mkList c 1)) ∧
    c ≠ NULL ∧
    m' !! c = Some (OCell (mkCell v NULL)) ∧
    is_list m' list [(c, v)].
Proof.
  intros Hl. pose proof Hl as (Hnn & Hlk)%is_list_nil. unfold InsertAt.
  erewrite bind_Done by by apply resolve_tail_Done.
  rewrite decide_False by done.
  rewrite new_cell_Done.
  set (m1 := <[fresh_addr m := OCell (mkCell v NULL)]> m).
  pose proof (fresh_addr_None m) as Hfresh.
  assert (Hne : fresh_addr m ≠ list) by (intros E; rewrite E in Hfresh; congruence).
  assert (Hlk1 : m1 !! list = Some (OList (mkList NULL 0)))
    by (unfold m1; by rewrite lookup_insert_ne).
  erewrite bind_Done by by apply out_of_bounds_Done.
  cbn [currentSize head]. rewrite wrap32_minus_one.
  rewrite bool_decide_eq_false_2 by lia. rewrite bool_decide_eq_false_2 by lia.
  cbn [orb].
  erewrite bind_Done by by apply Empty_Done.
  simpl.
  assert (Hl1 : is_list m1 list []) by (by apply is_list_nil).
  rewrite (PushFront_empty m1 list v Hl1).
  set (c := fresh_addr m1).
  pose proof (fresh_addr_None m1) as Hfresh1.
  pose proof (fresh_addr_not_NULL m1) as Hcnn. fold c in Hfresh1, Hcnn.
  assert (Hcl : c ≠ list) by (intros E; rewrite E in Hfresh1; congruence).
  assert (Hc : <[list := OList (mkList c 1)]> (<[c := OCell (mkCell v NULL)]> m1) !! c
               = Some (OCell (mkCell v NULL))).
  { rewrite lookup_insert_ne by done. apply lookup_insert_eq. }
  eexists _, c. split; [reflexivity|].
  split; [apply lookup_insert_eq|]. split; [done|]. split; [done|].
  split; [done|]. exists c. split; [apply lookup_insert_eq|].
  unfold chain. simpl. eauto.
Qed.

(** ** [PushBack] *)

Lemma last_addr_snoc cs a v : last_addr (cs ++ [(a, v)]) = a.
Proof. unfold last_addr. by rewrite last_snoc. Qed.

Lemma last_addr_cons c c' cs : last_addr (c :: c' :: cs) = last_addr (c' :: cs).
Proof. reflexivity. Qed.

Lemma PushBack_loop_eq fuel counter :
  PushBack_loop fuel counter =
  (nx <- get_next (pivot counter) ;
   if decide (nx = NULL) then ret counter
   else match fuel with
        | O => timeout
        | S fuel' =>
            nx' <- get_next (pivot counter) ;
            PushBack_loop fuel' (mkCounter nx' (wrap64 (currentPosition counter + 1)))
        end).
Proof. by destruct fuel. Qed.

(** The loop stops on the last cell of a non-empty chain and writes
    nothing. *)
Lemma PushBack_loop_Done fuel (m : mem) p k cs :
  chain m p cs -> cs ≠ [] -> (length cs ≤ S fuel)%nat ->
  ∃ k', PushBack_loop fuel (mkCounter p k) m = Done (mkCounter (last_addr cs) k') m.
Proof.
  unfold chain. revert fuel p k.
  induction cs as [|[a v] cs IH]; intros fuel p k Hseg Hne Hfuel; [done|].
  simpl in Hseg. destruct Hseg as (-> & Hnn & nx & Hlk & Hrest).
  rewrite PushBack_loop_eq. cbn [pivot currentPosition].
  erewrite bind_Done by by eapply get_next_Done.
  cbn [next]. destruct cs as [|[a' v'] cs].
  - simpl in Hrest. subst nx. rewrite decide_True by done. by exists k.
  - pose proof Hrest as (Hnx & Hnn' & _). simpl in Hnx. subst nx.
    rewrite decide_False by done.
    destruct fuel as [|fuel]; [simpl in Hfuel; lia|].
    erewrite bind_Done by by eapply get_next_Done.
    cbn [next]. rewrite last_addr_cons.
    apply IH; [done | done | simpl in *; lia].
Qed.

Lemma nonempty_snoc {A} (l : list A) : l ≠ [] -> ∃ l' x, l = l' ++ [x].
Proof.
  intros Hne. destruct l as [|x l] using rev_ind; [done|]. eauto.
Qed.

(** [PushBack] on a header with a well-formed chain, whatever its
    [currentSize] holds: the call returns, the chain gains one cell at its
    end, which is the freshly allocated one and holds the value;
    [currentSize] becomes 1 if the chain was empty and is incremented as a
    [uint32_t] otherwise; no other object changes. *)
Lemma PushBack_chain fuel (m : mem) list h s cs v :
  list ≠ NULL ->
  m !! list = Some (OList (mkList h s)) ->
  chain m h cs ->
  (length cs ≤ S fuel)%nat ->
  ∃ m' h',
    PushBack uninit_cell fuel list v m = Done tt m' ∧
    m' !! list = Some (OList (mkList h'
                   (match cs with [] => 1 | _ => wrap32 (s + 1) end))) ∧
    chain m' h' (cs ++ [(fresh_addr m, v)]) ∧
    (∀ a, a ≠ list -> a ≠ fresh_addr m -> a ≠ last_addr cs ->
          m' !! a = m !! a).
Proof.
  intros Hnn Hlk Hch Hfuel. unfold PushBack.
  rewrite new_cell_Done.
  set (c := fresh_addr m).
  set (m1 := <[c := OCell (mkCell v NULL)]> m).
  pose proof (fresh_addr_None m) as Hfresh.
  pose proof (fresh_addr_not_NULL m) as Hcnn. fold c in Hfresh, Hcnn.
  assert (Hcl : c ≠ list) by (intros E; rewrite E in Hfresh; congruence).
  assert (Hlk1 : m1 !! list = Some (OList (mkList h s)))
    by (unfold m1; by rewrite lookup_insert_ne).
  assert (Hc1 : m1 !! c = Some (OCell (mkCell v NULL))) by apply lookup_insert_eq.
  erewrite bind_Done by by apply get_head_Done.
  cbn [head].
  destruct (decide (cs = [])) as [->|Hne].
  - (* empty chain: the new cell becomes the head *)
    unfold chain in Hch. simpl in Hch. subst h.
    rewrite decide_True by done.
    erewrite bind_Done by by apply set_head_Done.
    erewrite set_size_Done by (done || apply lookup_insert_eq).
    cbn [head currentSize]. rewrite insert_insert_eq.
    eexists _, c. split; [reflexivity|]. split; [apply lookup_insert_eq|]. split.
    + unfold chain. simpl. split; [done|]. split; [done|].
      exists NULL. split; [|done]. by rewrite lookup_insert_ne.
    + intros a Hal Hac _. rewrite lookup_insert_ne by done.
      unfold m1. by rewrite lookup_insert_ne.
  - (* non-empty chain: walk to the last cell and link the new one *)
    assert (Hh : h ≠ NULL).
    { intros ->. by apply chain_NULL in Hch. }
    rewrite decide_False by done.
    destruct (nonempty_snoc cs Hne) as (cs0 & [al vl] & ->).
    pose proof (chain_NoDup _ _ _ Hch) as Hnd.
    rewrite fmap_app in Hnd. apply NoDup_app in Hnd as (_ & Hdisj & _).
    assert (Hal0 : al ∉ cs0.*1).
    { intros Hin. apply (Hdisj _ Hin). simpl. apply list_elem_of_singleton. done. }
    pose proof Hch as Hch'. unfold chain in Hch'.
    apply lseg_app in Hch' as (r & Hseg0 & Hlast).
    simpl in Hlast. destruct Hlast as (-> & Halnn & nx & Hal & ->).
    assert (Halc : al ≠ c) by (intros E; rewrite E in Hal; congruence).
    assert (Hall : al ≠ list) by (intros E; rewrite E in Hal; congruence).
    assert (Hch1 : chain m1 h (cs0 ++ [(al, vl)])).
    { unfold m1. by apply lseg_insert_fresh. }
    destruct (PushBack_loop_Done fuel m1 h 0 _ Hch1 Hne Hfuel) as (k' & Hloop).
    erewrite bind_Done by exact Hloop.
    rewrite last_addr_snoc. cbn [pivot].
    assert (Hal1 : m1 !! al = Some (OCell (mkCell vl NULL)))
      by (unfold m1; by rewrite lookup_insert_ne).
    erewrite bind_Done by by eapply set_next_Done.
    cbn [value].
    set (m2 := <[al := OCell (mkCell vl c)]> m1).
    assert (Hlk2 : m2 !! list = Some (OList (mkList h s)))
      by (unfold m2; by rewrite lookup_insert_ne).
    erewrite bind_Done by by apply get_size_Done.
    erewrite set_size_Done by done.
    cbn [head currentSize].
    eexists _, h. split; [reflexivity|]. split; [|split].
    + rewrite lookup_insert_eq. by destruct cs0.
    + eapply lseg_insert_list; [|exact Hlk2].
      rewrite <- app_assoc. apply lseg_app. exists al. split.
      * unfold m2. apply lseg_insert_ne; [|done].
        unfold m1. by apply lseg_insert_fresh.
      * simpl. split; [done|]. split; [done|]. exists c.
        split; [apply lookup_insert_eq|].
        split; [done|]. split; [done|]. exists NULL. split; [|done].
        unfold m2. by rewrite lookup_insert_ne.
    + intros a Hal' Hac Hlast.
      rewrite lookup_insert_ne by done.
      unfold m2. rewrite lookup_insert_ne by done.
      unfold m1. by rewrite lookup_insert_ne.
Qed.

(** [PushBack] on a well-formed list with room in [currentSize]: the list
    is well formed again, one cell longer. *)
Lemma PushBack_Done fuel (m : mem) list cs v :
  is_list m list cs ->
  Z.of_nat (length cs) + 1 < 2 ^ 32 ->
  (length cs ≤ S fuel)%nat ->
  ∃ m', PushBack uninit_cell fuel list v m = Done tt m' ∧
        is_list m' list (cs ++ [(fresh_addr m, v)]) ∧
        (∀ a, a ≠ list -> a ≠ fresh_addr m -> a ≠ last_addr cs ->
              m' !! a = m !! a).
Proof.
  intros (Hnn & h & Hlk & Hch) Hsz Hfuel.
  destruct (PushBack_chain fuel m list h _ cs v Hnn Hlk Hch Hfuel)
    as (m' & h' & Hrun & Hlk' & Hch' & Hframe).
  exists m'. split; [done|]. split; [|done].
  split; [done|]. exists h'. split; [|done].
  rewrite Hlk'. do 3 f_equal. rewrite length_app. cbn [length].
  destruct cs; [done|].
  unfold wrap32. rewrite Z.mod_small by lia. lia.
Qed.

(** The same with [currentSize] counting modulo 2^32, as the field does:
    no bound on the length is needed. *)
Lemma PushBack_mod32 fuel (m : mem) list cs v :
  is_list_mod32 m list cs ->
  (length cs ≤ S fuel)%nat ->
  ∃ m', PushBack uninit_cell fuel list v m = Done tt m' ∧
        is_list_mod32 m' list (cs ++ [(fresh_addr m, v)]).
Proof.
  intros (Hnn & h & Hlk & Hch) Hfuel.
  destruct (PushBack_chain fuel m list h _ cs v Hnn Hlk Hch Hfuel)
    as (m' & h' & Hrun & Hlk' & Hch' & _).
  exists m'. split; [done|].
  split; [done|]. exists h'. split; [|done].
  rewrite Hlk'. do 3 f_equal. rewrite length_app. cbn [length].
  destruct cs; [done|].
  unfold wrap32. rewrite Zplus_mod_idemp_l. f_equal. lia.
Qed.

(** ** [GetAt] *)

Lemma GetAt_loop_eq fuel position counter :
  GetAt_loop fuel position counter =
  if decide (currentPosition counter = position) then ret counter
  else match fuel with
       | O => timeout
       | S fuel' =>
           nx <- get_next (pivot counter) ;
           GetAt_loop fuel' position
             (mkCounter nx (wrap64 (currentPosition counter + 1)))
       end.
Proof. by destruct fuel. Qed.

(** Walking a segment of [n] cells from counter value [k] ends on the
    segment's exit with counter [k + n]. *)
Lemma GetAt_loop_Done fuel (m : mem) p q cs k :
  lseg m p q cs -> (length cs ≤ fuel)%nat ->
  0 ≤ k -> k + Z.of_nat (length cs) < 2 ^ 64 ->
  GetAt_loop fuel (k + Z.of_nat (length cs)) (mkCounter p k) m =
  Done (mkCounter q (k + Z.of_nat (length cs))) m.
Proof.
  revert fuel p k.
  induction cs as [|[a v] cs IH]; intros fuel p k Hseg Hfuel Hk Hbound;
    rewrite GetAt_loop_eq; cbn [pivot currentPosition].
  - simpl in Hseg. subst q. simpl. rewrite Z.add_0_r.
    by rewrite decide_True by done.
  - simpl in Hseg. destruct Hseg as (-> & Hnn & nx & Hlk & Hrest).
    cbn [length] in *.
    rewrite decide_False by lia.
    destruct fuel as [|fuel]; [lia|].
    erewrite bind_Done by by eapply get_next_Done.
    cbn [next]. unfold wrap64. rewrite Z.mod_small by lia.
    replace (k + Z.of_nat (S (length cs))) with (k + 1 + Z.of_nat (length cs)) by lia.
    apply IH; [done | lia | lia | lia].
Qed.

Lemma chain_split_at (m : mem) p cs i c :
  chain m p cs -> cs !! i = Some c ->
  lseg m p c.1 (take i cs) ∧ chain m c.1 (drop i cs).
Proof.
  unfold chain. intros Hch Hi.
  rewrite <- (take_drop i cs) in Hch. apply lseg_app in Hch as (r & H1 & H2).
  rewrite (drop_S _ _ _ Hi) in H2. pose proof H2 as (-> & _).
  split; [done|]. by rewrite (drop_S _ _ _ Hi).
Qed.

(** [GetAt] on a well-formed list: the call returns, writes nothing, and
    yields the address of the cell at the resolved position when that
    position is an index of the list, and [NULL] otherwise. *)
Lemma GetAt_Done fuel (m : mem) list cs position :
  is_list m list cs ->
  Z.of_nat (length cs) < 2 ^ 32 ->
  (length cs ≤ fuel)%nat ->
  GetAt fuel list position m =
  Done (if decide (0 ≤ resolved (length cs) position < Z.of_nat (length cs))
        then addr_at cs (Z.to_nat (resolved (length cs) position))
        else NULL) m.
Proof.
  intros (Hnn & h & Hlk & Hch) Hsz Hfuel. unfold GetAt.
  erewrite bind_Done by by apply resolve_tail_Done.
  cbn [currentSize]. fold (resolved (length cs) position).
  set (rp := resolved (length cs) position).
  erewrite bind_Done by by apply out_of_bounds_Done.
  cbn [currentSize].
  destruct cs as [|c cs].
  - (* empty list *)
    unfold chain in Hch. simpl in Hch. subst h.
    cbn [length]. change (Z.of_nat 0) with 0. rewrite wrap32_minus_one.
    rewrite (decide_False (P := 0 ≤ rp < 0)) by lia.
    destruct (bool_decide (rp < 0) || bool_decide (rp > 2 ^ 32 - 1)); [done|].
    erewrite bind_Done by by apply Empty_Done.
    cbn [head currentSize]. rewrite !bool_decide_eq_true_2 by done.
    cbn [andb]. case_bool_decide as Hz; [done|].
    assert (rp = 0) as -> by (by destruct (decide (rp = 0))).
    rewrite decide_True by done.
    by erewrite get_head_Done by done.
  - (* non-empty list *)
    assert (Hw : wrap32 (Z.of_nat (length (c :: cs)) - 1) = Z.of_nat (length cs)).
    { unfold wrap32. cbn [length] in *. rewrite Z.mod_small by lia. lia. }
    rewrite Hw.
    pose proof Hch as (Hh & Hhnn & nx & Hc & Hrest). 
    destruct (decide (0 ≤ rp < Z.of_nat (length (c :: cs)))) as [Hin|Hout].
    + rewrite !bool_decide_eq_false_2 by (cbn [length] in Hin; lia).
      cbn [orb].
      erewrite bind_Done by by apply Empty_Done.
      cbn [head currentSize]. rewrite (bool_decide_eq_false_2 (h = NULL)) by done.
      cbn [andb].
      destruct (decide (rp = 0)) as [Hz|Hnz].
      * erewrite get_head_Done by done. rewrite Hz. cbn [head]. by rewrite Hh.
      * erewrite bind_Done by by apply get_head_Done.
        cbn [head].
        destruct (lookup_lt_is_Some_2 (c :: cs) (Z.to_nat rp)) as [ci Hci]; [lia|].
        destruct (chain_split_at _ _ _ _ _ Hch Hci) as (Hseg & _).
        assert (Hlen : Z.of_nat (length (take (Z.to_nat rp) (c :: cs))) = rp).
        { rewrite length_take_le by lia. lia. }
        pose proof (GetAt_loop_Done fuel m h ci.1 _ 0 Hseg) as Hloop.
        rewrite Hlen in Hloop. rewrite Z.add_0_l in Hloop.
        erewrite bind_Done by (apply Hloop; lia).
        unfold addr_at. by rewrite Hci.
    + assert (Hoob : rp < 0 ∨ rp > Z.of_nat (length cs)) by (cbn [length] in Hout; lia).
      destruct Hoob.
      * by rewrite (bool_decide_eq_true_2 (rp < 0)) by done.
      * rewrite (bool_decide_eq_true_2 (rp > _)) by done.
        by rewrite orb_true_r.
Qed.

Lemma addr_at_not_NULL (m : mem) p cs i :
  chain m p cs -> (i < length cs)%nat -> addr_at cs i ≠ NULL.
Proof.
  intros Hch Hi. unfold addr_at.
  destruct (lookup_lt_is_Some_2 cs i Hi) as [c Hc]. rewrite Hc.
  eapply (lseg_lookup m p NULL cs c.1 Hch).
  apply list_elem_of_fmap. exists c. split; [done|].
  apply list_elem_of_lookup. eauto.
Qed.

(** C10. On a well-formed list [GetAt] returns normally without writing,
    and what it returns is [NULL] exactly when the position, once
    [LIST_TAIL] is resolved, lies outside [0, size-1].  In particular
    [GetAt(list, 0)] on an empty list returns [NULL]: the test that lets
    position 0 through on an empty list only leads to returning the absent
    head. *)
Theorem GetAt_NULL_iff_out_of_range fuel (m : mem) list cs position :
  is_list m list cs ->
  Z.of_nat (length cs) < 2 ^ 32 ->
  (length cs ≤ fuel)%nat ->
  (cs = [] -> GetAt fuel list 0 m = Done NULL m) ∧
  ∃ r, GetAt fuel list position m = Done r m ∧
       (r = NULL ↔
        ¬ (0 ≤ resolved (length cs) position ≤ Z.of_nat (length cs) - 1)).
Proof.
  intros Hl Hsz Hfuel. split.
  - intros ->. by rewrite (GetAt_Done fuel m list [] 0 Hl Hsz Hfuel).
  - rewrite (GetAt_Done fuel m list cs position Hl Hsz Hfuel).
    eexists. split; [reflexivity|].
    destruct Hl as (_ & h & _ & Hch).
    case_decide as Hin.
    + split; [|lia]. intros Hnull. exfalso.
      eapply (addr_at_not_NULL m h cs); [done | | exact Hnull]. lia.
    + split; [lia | done].
Qed.

(** ** Pushing a sequence at the back *)

Lemma PushBack_all_Done fuel (m : mem) list cs vs :
  is_list m list cs ->
  Z.of_nat (length cs + length vs) < 2 ^ 32 ->
  (length cs + length vs ≤ S fuel)%nat ->
  ∃ m' cs', PushBack_all uninit_cell fuel list vs m = Done tt m' ∧
            is_list m' list (cs ++ cs') ∧ cs'.*2 = vs.
Proof.
  revert m cs. induction vs as [|v vs IH]; intros m cs Hl Hsz Hfuel.
  - exists m, []. simpl. rewrite app_nil_r. done.
  - cbn [length] in *.
    destruct (PushBack_Done fuel m list cs v Hl) as (m1 & Hpush & Hl1 & _); [lia | lia |].
    destruct (IH m1 (cs ++ [(fresh_addr m, v)]) Hl1) as (m' & cs' & Hall & Hl' & Hvs).
    { rewrite length_app. simpl. lia. }
    { rewrite length_app. simpl. lia. }
    exists m', ((fresh_addr m, v) :: cs'). split; [|split].
    + simpl. by erewrite bind_Done by exact Hpush.
    + by rewrite <- app_assoc in Hl'.
    + rewrite fmap_cons. cbn [snd]. by rewrite Hvs.
Qed.

Lemma PushBack_all_mod32 fuel (m : mem) list cs vs :
  is_list_mod32 m list cs ->
  (length cs + length vs ≤ S fuel)%nat ->
  ∃ m' cs', PushBack_all uninit_cell fuel list vs m = Done tt m' ∧
            is_list_mod32 m' list (cs ++ cs') ∧ length cs' = length vs.
Proof.
  revert m cs. induction vs as [|v vs IH]; intros m cs Hl Hfuel.
  - exists m, []. rewrite app_nil_r. done.
  - cbn [length] in Hfuel.
    destruct (PushBack_mod32 fuel m list cs v Hl) as (m1 & Hpush & Hl1); [lia|].
    destruct (IH m1 (cs ++ [(fresh_addr m, v)]) Hl1) as (m' & cs' & Hall & Hl' & Hlen).
    { rewrite length_app. cbn [length]. lia. }
    exists m', ((fresh_addr m, v) :: cs'). split; [|split].
    + cbn [PushBack_all]. by erewrite bind_Done by exact Hpush.
    + by rewrite <- app_assoc in Hl'.
    + cbn [length]. by rewrite Hlen.
Qed.

(** [GetAt] at a position above [currentSize - 1] returns [NULL], whatever
    the chain holds. *)
Lemma GetAt_above_size fuel (m : mem) list h s position :
  list ≠ NULL ->
  m !! list = Some (OList (mkList h s)) ->
  position ≠ LIST_TAIL ->
  position > wrap32 (s - 1) ->
  GetAt fuel list position m = Done NULL m.
Proof.
  intros Hnn Hlk Hnt Habove. unfold GetAt.
  erewrite bind_Done by by apply resolve_tail_Done.
  rewrite decide_False by done.
  erewrite bind_Done by by apply out_of_bounds_Done.
  cbn [currentSize].
  rewrite (bool_decide_eq_true_2 (position > _)) by done.
  by rewrite orb_true_r.
Qed.

(** Once more values have been pushed than [currentSize] can count, the
    field has wrapped and [GetAt] refuses indices of cells that are in the
    chain. *)
Lemma PushBack_all_GetAt_wrapped fuel (m : mem) list (vs : Datatypes.list ptr) :
  is_list m list [] ->
  (length vs ≤ S fuel)%nat ->
  wrap32 (Z.of_nat (length vs)) = 1 ->
  ∃ m', PushBack_all uninit_cell fuel list vs m = Done tt m' ∧
        GetAt fuel list 1 m' = Done NULL m'.
Proof.
  intros (Hnn & h & Hlk & Hch) Hfuel Hwrap.
  destruct (PushBack_all_mod32 fuel m list [] vs) as (m' & cs & Hall & Hl' & Hlen);
    [split; [done|]; eauto | simpl; lia |].
  exists m'. split; [done|].
  destruct Hl' as (_ & h' & Hlk' & _). cbn [app] in Hlk'.
  rewrite Hlen, Hwrap in Hlk'.
  apply (GetAt_above_size fuel m' list h' 1 1 Hnn Hlk'); [done|].
  by vm_compute.
Qed.

(** C8. Values pushed with [PushBack], first to last, onto an empty list
    (fewer than 2^32 of them, the range of [currentSize]): every call
    returns, and afterwards [GetAt(list, i)] returns a live cell whose
    [value] is the i-th value pushed, for every index [i] of the sequence. *)
Theorem PushBack_all_GetAt fuel (m : mem) list vs i v :
  is_list m list [] ->
  Z.of_nat (length vs) < 2 ^ 32 ->
  (length vs ≤ fuel)%nat ->
  vs !! i = Some v ->
  ∃ m' c, PushBack_all uninit_cell fuel list vs m = Done tt m' ∧
          GetAt fuel list (Z.of_nat i) m' = Done c m' ∧
          c ≠ NULL ∧
          get_value c m' = Done v m'.
Proof.
  intros Hl Hsz Hfuel Hi.
  destruct (PushBack_all_Done fuel m list [] vs Hl) as (m' & cs & Hall & Hl' & Hvs);
    [simpl; lia | simpl; lia |].
  simpl in Hl'.
  assert (Hlen : length cs = length vs) by (by rewrite <- Hvs, length_fmap).
  pose proof (lookup_lt_Some _ _ _ Hi) as Hlt.
  destruct (lookup_lt_is_Some_2 cs i) as [[a w] Hc]; [lia|].
  assert (w = v) as ->.
  { rewrite <- Hvs in Hi. rewrite list_lookup_fmap, Hc in Hi. by injection Hi. }
  exists m', a. split; [done|].
  assert (Hres : resolved (length cs) (Z.of_nat i) = Z.of_nat i).
  { unfold resolved. rewrite decide_False; [done|].
    unfold LIST_TAIL, INT64_MAX. lia. }
  rewrite (GetAt_Done fuel m' list cs (Z.of_nat i) Hl') by lia.
  rewrite Hres, Nat2Z.id. rewrite decide_True by lia.
  unfold addr_at. rewrite Hc. cbn [fst].
  destruct Hl' as (_ & h & _ & Hch).
  destruct (chain_split_at m' h cs i (a, v) Hch Hc) as (_ & Hsuf).
  rewrite (drop_S _ _ _ Hc) in Hsuf.
  destruct Hsuf as (_ & Hann & nx & Ha & _). cbn [fst snd] in *.
  split; [done|]. split; [done|].
  by erewrite get_value_Done by done.
Qed.

(** ** The executable walk agrees with [chain] *)

Lemma cells_from_sound fuel (m : mem) p cs :
  cells_from fuel m p = Some cs -> chain m p cs.
Proof.
  unfold chain. revert p cs. induction fuel as [|fuel IH]; intros p cs; simpl.
  - destruct (decide (p = NULL)) as [->|]; [|done]. by intros [= <-].
  - destruct (decide (p = NULL)) as [->|Hp]; [by intros [= <-]|].
    destruct (m !! p) as [[[v nx]|]|] eqn:Hlk; try done. cbn [next value].
    destruct (cells_from fuel m nx) as [cs'|] eqn:Hrec; [|done].
    intros [= <-]. simpl. split; [done|]. split; [done|].
    exists nx. split; [done|]. by apply IH.
Qed.

Lemma cells_from_complete fuel (m : mem) p cs :
  chain m p cs -> (length cs ≤ fuel)%nat -> cells_from fuel m p = Some cs.
Proof.
  unfold chain. revert p fuel. induction cs as [|[a v] cs IH]; intros p fuel Hch Hfuel.
  - simpl in Hch. subst p. by destruct fuel.
  - simpl in Hch. destruct Hch as (-> & Hnn & nx & Hlk & Hrest).
    destruct fuel as [|fuel]; [simpl in Hfuel; lia|].
    simpl. rewrite decide_False by done. rewrite Hlk. cbn [next value].
    rewrite (IH nx fuel Hrest); [done | simpl in Hfuel; lia].
Qed.

Lemma invariant_is_list (m : mem) list : invariant m list <-> ∃ cs, is_list m list cs.
Proof.
  split.
  - intros (Hnn & h & s & Hlk & _ & cs & Hch & <-). exists cs. split; [done|]. eauto.
  - intros (cs & Hnn & h & Hlk & Hch). split; [done|].
    exists h, (Z.of_nat (length cs)). split; [done|]. split; [|eauto].
    pose proof (chain_nil_iff m h cs Hch) as Hiff. rewrite <- Hiff.
    destruct cs; simpl; split; (done || lia).
Qed.

Lemma invariant_check_spec (m : mem) list :
  invariant m list <-> invariant_check m list = true.
Proof.
  unfold invariant_check. split.
  - intros (Hnn & h & s & Hlk & _ & cs & Hch & <-).
    rewrite bool_decide_eq_true_2 by done. rewrite Hlk. cbn [andb head currentSize].
    rewrite (cells_from_complete _ m h cs Hch) by lia.
    by apply bool_decide_eq_true_2.
  - intros [Hnn Hrest]%andb_prop. apply bool_decide_eq_true_1 in Hnn.
    destruct (m !! list) as [[|[h s]]|] eqn:Hlk; try done. cbn [head currentSize] in Hrest.
    destruct (cells_from (Z.to_nat s) m h) as [cs|] eqn:Hwalk; [|done].
    apply bool_decide_eq_true_1 in Hrest. apply cells_from_sound in Hwalk.
    apply invariant_is_list. exists cs. split; [done|]. exists h. by rewrite Hrest.
Qed.

(** ** [RemoveAt] on a non-empty list *)

Lemma wrap32_pred_length {A} (c : A) (cs : list A) :
  Z.of_nat (length (c :: cs)) < 2 ^ 32 ->
  wrap32 (Z.of_nat (length (c :: cs)) - 1) = Z.of_nat (length cs).
Proof.
  intros Hsz. unfold wrap32. cbn [length] in *. rewrite Z.mod_small by lia. lia.
Qed.

Lemma walk_before_eq fuel position beforeTarget counter :
  walk_before fuel position beforeTarget counter =
  if decide (currentPosition counter = position) then ret (beforeTarget, counter)
  else match fuel with
       | O => timeout
       | S fuel' =>
           let beforeTarget' := pivot counter in
           nx <- get_next (pivot counter) ;
           walk_before fuel' position beforeTarget'
             (mkCounter nx (wrap64 (currentPosition counter + 1)))
       end.
Proof. by destruct fuel. Qed.

(** Walking a segment from counter [k]: the pivot ends on the segment's
    exit, and the cell before it is the segment's last cell (or what it
    was at the start, for an empty segment). *)
Lemma walk_before_Done fuel (m : mem) p q cs k b :
  lseg m p q cs -> (length cs ≤ fuel)%nat ->
  0 ≤ k -> k + Z.of_nat (length cs) < 2 ^ 64 ->
  walk_before fuel (k + Z.of_nat (length cs)) b (mkCounter p k) m =
  Done (match cs with [] => b | _ => last_addr cs end,
        mkCounter q (k + Z.of_nat (length cs))) m.
Proof.
  revert fuel p k b.
  induction cs as [|[a v] cs IH]; intros fuel p k b Hseg Hfuel Hk Hbound;
    rewrite walk_before_eq; cbn [pivot currentPosition].
  - simpl in Hseg. subst q. simpl. rewrite Z.add_0_r.
    by rewrite decide_True by done.
  - simpl in Hseg. destruct Hseg as (-> & Hnn & nx & Hlk & Hrest).
    cbn [length] in *.
    rewrite decide_False by lia.
    destruct fuel as [|fuel]; [lia|].
    cbv zeta.
    erewrite bind_Done by by eapply get_next_Done.
    cbn [next]. unfold wrap64. rewrite Z.mod_small by lia.
    replace (k + Z.of_nat (S (length cs))) with (k + 1 + Z.of_nat (length cs)) by lia.
    rewrite (IH fuel nx (k + 1) a Hrest) by lia.
    by destruct cs.
Qed.

(** [RemoveAt(list, 0)] on a non-empty list: the loop does not run,
    [beforeTarget] is still [NULL], and [beforeTarget->next = afterTarget]
    dereferences it. *)
Lemma RemoveAt_head_Fault fuel (m : mem) list c cs :
  is_list m list (c :: cs) ->
  Z.of_nat (length (c :: cs)) < 2 ^ 32 ->
  RemoveAt fuel list 0 m = Fault.
Proof.
  intros (Hnn & h & Hlk & Hch) Hsz. unfold RemoveAt.
  pose proof Hch as (Hh & Hhnn & nx & Hc & _).
  erewrite bind_Done by by apply resolve_tail_Done.
  rewrite decide_False by done.
  erewrite bind_Done by by apply Empty_Done.
  cbn [head currentSize]. rewrite (bool_decide_eq_false_2 (h = NULL)) by done.
  cbn [andb].
  erewrite bind_Done by by apply out_of_bounds_Done.
  cbn [currentSize]. rewrite wrap32_pred_length by done.
  rewrite !bool_decide_eq_false_2 by lia. cbn [orb].
  erewrite bind_Done by by apply get_head_Done.
  cbn [head]. rewrite walk_before_eq. cbn [currentPosition].
  rewrite decide_True by done.
  erewrite bind_Done by reflexivity. cbn [fst snd pivot].
  erewrite bind_Done by by eapply get_next_Done.
  reflexivity.
Qed.

(** [RemoveAt(list, p)] for an inner or last position [p >= 1]: the target
    cell is unlinked and released and every other cell keeps its contents,
    but [currentSize] is left as it was. *)
Lemma RemoveAt_inner_Done fuel (m : mem) list pre b vb t vt post :
  is_list m list (pre ++ (b, vb) :: (t, vt) :: post) ->
  Z.of_nat (length (pre ++ (b, vb) :: (t, vt) :: post)) < 2 ^ 32 ->
  (length pre + 1 ≤ fuel)%nat ->
  ∃ m' h,
    RemoveAt fuel list (Z.of_nat (length pre + 1)) m = Done tt m' ∧
    m' !! list = Some (OList (mkList h
                   (Z.of_nat (length (pre ++ (b, vb) :: (t, vt) :: post))))) ∧
    chain m' h (pre ++ (b, vb) :: post) ∧
    m' !! t = None.
Proof.
  intros (Hnn & h & Hlk & Hch) Hsz Hfuel. unfold RemoveAt.
  set (cs := pre ++ (b, vb) :: (t, vt) :: post) in *.
  assert (Hlen : length cs = (length pre + 2 + length post)%nat).
  { unfold cs. rewrite length_app. simpl. lia. }
  assert (Hhnn : h ≠ NULL).
  { intros ->. apply chain_NULL in Hch. unfold cs in Hch. by destruct pre. }
  pose proof (chain_NoDup _ _ _ Hch) as Hnd. unfold cs in Hnd.
  rewrite fmap_app in Hnd. simpl in Hnd.
  apply NoDup_app in Hnd as (_ & Hdisj & Hnd2).
  apply NoDup_cons in Hnd2 as (Hb2 & Hnd3).
  apply NoDup_cons in Hnd3 as (Ht3 & _).
  assert (Hbt : b ≠ t) by (intros ->; apply Hb2; apply elem_of_cons; by left).
  assert (Hbpre : b ∉ pre.*1).
  { intros Hin. apply (Hdisj _ Hin). apply elem_of_cons. by left. }
  assert (Htpre : t ∉ pre.*1).
  { intros Hin. apply (Hdisj _ Hin). apply elem_of_cons. right. apply elem_of_cons. by left. }
  assert (Hbpost : b ∉ post.*1).
  { intros Hin. apply Hb2. apply elem_of_cons. by right. }
  pose proof Hch as Hch'. unfold chain, cs in Hch'.
  apply lseg_app in Hch' as (r & Hpre & Hmid).
  destruct Hmid as (Hr & Hbnn & nb & Hb & Hmid). cbn [fst snd] in *. subst r.
  destruct Hmid as (Hnb & Htnn & nt & Ht & Hpost). cbn [fst snd] in *. subst nb.
  assert (Htl : t ≠ list) by (intros E; rewrite E in Ht; congruence).
  assert (Hbl : b ≠ list) by (intros E; rewrite E in Hb; congruence).
  erewrite bind_Done by by apply resolve_tail_Done.
  rewrite decide_False by (unfold LIST_TAIL, INT64_MAX; lia).
  erewrite bind_Done by by apply Empty_Done.
  cbn [head currentSize]. rewrite (bool_decide_eq_false_2 (h = NULL)) by done.
  cbn [andb].
  erewrite bind_Done by by apply out_of_bounds_Done.
  cbn [currentSize]. unfold wrap32. rewrite Z.mod_small by lia.
  rewrite !bool_decide_eq_false_2 by lia. cbn [orb].
  erewrite bind_Done by by apply get_head_Done.
  cbn [head].
  assert (Hseg : lseg m h t (pre ++ [(b, vb)])).
  { apply lseg_app. exists b. split; [done|]. simpl. eauto 10. }
  pose proof (walk_before_Done fuel m h t (pre ++ [(b, vb)]) 0 NULL Hseg) as Hwalk.
  rewrite length_app in Hwalk. cbn [length] in Hwalk.
  rewrite Z.add_0_l in Hwalk.
  erewrite bind_Done by (apply Hwalk; lia).
  rewrite last_addr_snoc.
  replace (match pre ++ [(b, vb)] with [] => NULL | _ :: _ => b end) with b
    by (by destruct pre).
  cbn [fst snd pivot].
  erewrite bind_Done by by eapply get_next_Done.
  cbn [next].
  erewrite bind_Done by by eapply set_next_Done.
  cbn [value].
  unfold free. rewrite decide_False by done.
  rewrite lookup_insert_ne by done. rewrite Ht.
  exists (delete t (<[b := OCell (mkCell vb nt)]> m)), h.
  split; [done|]. split; [|split].
  - rewrite lookup_delete_ne by done. by rewrite lookup_insert_ne.
  - unfold chain. apply lseg_app. exists b. split.
    + apply lseg_delete_ne; [|done]. by apply lseg_insert_ne.
    + simpl. split; [done|]. split; [done|]. exists nt. split.
      * rewrite lookup_delete_ne by done. apply lookup_insert_eq.
      * apply lseg_delete_ne; [|done]. by apply lseg_insert_ne.
  - apply lookup_delete_eq.
Qed.

(** After [RemoveAt] at a position [p >= 1] the header counts one cell
    more than the chain holds. *)
Lemma RemoveAt_inner_not_invariant fuel (m : mem) list pre b vb t vt post :
  is_list m list (pre ++ (b, vb) :: (t, vt) :: post) ->
  Z.of_nat (length (pre ++ (b, vb) :: (t, vt) :: post)) < 2 ^ 32 ->
  (length pre + 1 ≤ fuel)%nat ->
  ∃ m', RemoveAt fuel list (Z.of_nat (length pre + 1)) m = Done tt m' ∧
        ¬ invariant m' list.
Proof.
  intros Hl Hsz Hfuel.
  destruct (RemoveAt_inner_Done fuel m list pre b vb t vt post Hl Hsz Hfuel)
    as (m' & h & Hrun & Hlk & Hch & _).
  exists m'. split; [done|].
  intros (_ & h' & s & Hlk' & _ & cs' & Hch' & Hlen).
  rewrite Hlk in Hlk'. injection Hlk' as <- <-.
  pose proof (chain_inj _ _ _ _ Hch Hch') as <-.
  rewrite !length_app in Hlen. cbn [length] in Hlen. lia.
Qed.

(** ** [InsertAt] at position [size] *)

(** On a non-empty list, position [size] is caught by the bounds test
    [position > list->currentSize - 1]: the call returns having only
    allocated the cell it then leaks; the [PushBack] branch further down is
    never reached. *)
Lemma InsertAt_at_size_nonempty fuel (m : mem) list c cs v :
  is_list m list (c :: cs) ->
  Z.of_nat (length (c :: cs)) < 2 ^ 32 ->
  InsertAt uninit_cell fuel list (Z.of_nat (length (c :: cs))) v m =
  Done tt (<[fresh_addr m := OCell (mkCell v NULL)]> m) ∧
  is_list (<[fresh_addr m := OCell (mkCell v NULL)]> m) list (c :: cs).
Proof.
  intros (Hnn & h & Hlk & Hch) Hsz.
  pose proof (fresh_addr_None m) as Hfresh.
  assert (Hne : fresh_addr m ≠ list) by (intros E; rewrite E in Hfresh; congruence).
  split.
  - unfold InsertAt.
    erewrite bind_Done by by apply resolve_tail_Done.
    rewrite decide_False by (unfold LIST_TAIL, INT64_MAX; lia).
    rewrite new_cell_Done.
    erewrite bind_Done
      by (apply out_of_bounds_Done; [done | by rewrite lookup_insert_ne]).
    cbn [currentSize]. rewrite wrap32_pred_length by done.
    rewrite (bool_decide_eq_true_2 (_ > _)) by (cbn [length]; lia).
    by rewrite orb_true_r.
  - split; [done|]. exists h. split; [by rewrite lookup_insert_ne|].
    by apply lseg_insert_fresh.
Qed.

(** ** [RetrieveBack] *)

Lemma RetrieveBack_loop_eq fuel beforeTarget counter :
  RetrieveBack_loop fuel beforeTarget counter =
  (nx <- get_next (pivot counter) ;
   if decide (nx = NULL) then ret (beforeTarget, counter)
   else match fuel with
        | O => timeout
        | S fuel' =>
            let beforeTarget' := pivot counter in
            nx' <- get_next (pivot counter) ;
            RetrieveBack_loop fuel' beforeTarget'
              (mkCounter nx' (wrap64 (currentPosition counter + 1)))
        end).
Proof. by destruct fuel. Qed.

Lemma lseg_snoc_not_NULL (m : mem) p q cs c : lseg m p q (cs ++ [c]) -> p ≠ NULL.
Proof. destruct cs; simpl; by intros (_ & ? & _). Qed.

Lemma RetrieveBack_loop_Done fuel (m : mem) p cs t vt k b :
  chain m p (cs ++ [(t, vt)]) -> (length cs ≤ fuel)%nat ->
  ∃ k', RetrieveBack_loop fuel b (mkCounter p k) m =
        Done (match cs with [] => b | _ => last_addr cs end, mkCounter t k') m.
Proof.
  unfold chain. revert fuel p k b.
  induction cs as [|[a v] cs IH]; intros fuel p k b Hseg Hfuel;
    rewrite RetrieveBack_loop_eq; cbn [pivot currentPosition].
  - simpl in Hseg. destruct Hseg as (-> & Hnn & nx & Hlk & ->).
    erewrite bind_Done by by eapply get_next_Done.
    cbn [next]. rewrite decide_True by done. by exists k.
  - simpl in Hseg. destruct Hseg as (-> & Hnn & nx & Hlk & Hrest).
    pose proof (lseg_snoc_not_NULL _ _ _ _ _ Hrest) as Hnx.
    erewrite bind_Done by by eapply get_next_Done.
    cbn [next]. rewrite decide_False by done.
    destruct fuel as [|fuel]; [simpl in Hfuel; lia|].
    cbv zeta.
    erewrite bind_Done by by eapply get_next_Done.
    cbn [next].
    destruct (IH fuel nx (wrap64 (k + 1)) a Hrest) as (k' & Hloop);
      [simpl in Hfuel; lia|].
    exists k'. rewrite Hloop. by destruct cs.
Qed.

(** [RetrieveBack] on a one-cell list: the loop does not run,
    [beforeTarget] is still [NULL], and [beforeTarget->next = NULL]
    dereferences it. *)
Lemma RetrieveBack_singleton_Fault fuel (m : mem) list a v :
  is_list m list [(a, v)] -> RetrieveBack fuel list m = Fault.
Proof.
  intros (Hnn & h & Hlk & Hch). unfold RetrieveBack.
  pose proof Hch as (Hh & Hhnn & nx & Hc & Hnx). cbn [fst snd] in *.
  erewrite bind_Done by by apply Empty_Done.
  cbn [head currentSize]. rewrite (bool_decide_eq_false_2 (h = NULL)) by done.
  cbn [andb].
  erewrite bind_Done by by apply get_head_Done.
  cbn [head].
  destruct (RetrieveBack_loop_Done fuel m h [] a v 0 NULL Hch) as (k' & Hloop);
    [simpl; lia|].
  erewrite bind_Done by exact Hloop.
  reflexivity.
Qed.

(** [RetrieveBack] on a list of two cells or more: the last cell is
    unlinked and returned with an absent [next], the size goes down by one
    and the other cells are as before. *)
Lemma RetrieveBack_Done fuel (m : mem) list pre b vb t vt :
  is_list m list (pre ++ [(b, vb); (t, vt)]) ->
  Z.of_nat (length (pre ++ [(b, vb); (t, vt)])) < 2 ^ 32 ->
  (length pre + 1 ≤ fuel)%nat ->
  ∃ m', RetrieveBack fuel list m = Done t m' ∧
        is_list m' list (pre ++ [(b, vb)]) ∧
        t ≠ NULL ∧
        m' !! t = Some (OCell (mkCell vt NULL)).
Proof.
  intros (Hnn & h & Hlk & Hch) Hsz Hfuel. unfold RetrieveBack.
  assert (Hhnn : h ≠ NULL).
  { intros ->. apply chain_NULL in Hch. by destruct pre. }
  pose proof (chain_NoDup _ _ _ Hch) as Hnd.
  rewrite fmap_app in Hnd. simpl in Hnd.
  apply NoDup_app in Hnd as (_ & Hdisj & Hnd2).
  apply NoDup_cons in Hnd2 as (Hb2 & _).
  assert (Hbt : b ≠ t) by (intros ->; apply Hb2; apply elem_of_cons; by left).
  assert (Hbpre : b ∉ pre.*1).
  { intros Hin. apply (Hdisj _ Hin). apply elem_of_cons. by left. }
  assert (Htpre : t ∉ pre.*1).
  { intros Hin. apply (Hdisj _ Hin). apply elem_of_cons. right. apply elem_of_cons. by left. }
  pose proof Hch as Hch'. unfold chain in Hch'.
  apply lseg_app in Hch' as (r & Hpre & Hmid).
  destruct Hmid as (Hr & Hbnn & nb & Hb & Hmid). cbn [fst snd] in *. subst r.
  destruct Hmid as (Hnb & Htnn & nt & Ht & Hnt). cbn [fst snd] in *. subst nb.
  simpl in Hnt. subst nt.
  assert (Htl : t ≠ list) by (intros E; rewrite E in Ht; congruence).
  assert (Hbl : b ≠ list) by (intros E; rewrite E in Hb; congruence).
  erewrite bind_Done by by apply Empty_Done.
  cbn [head currentSize]. rewrite (bool_decide_eq_false_2 (h = NULL)) by done.
  cbn [andb].
  erewrite bind_Done by by apply get_head_Done.
  cbn [head].
  assert (Hch2 : chain m h ((pre ++ [(b, vb)]) ++ [(t, vt)]))
    by (by rewrite <- app_assoc).
  destruct (RetrieveBack_loop_Done fuel m h (pre ++ [(b, vb)]) t vt 0 NULL Hch2)
    as (k' & Hloop); [rewrite length_app; simpl; lia|].
  erewrite bind_Done by exact Hloop.
  rewrite last_addr_snoc.
  replace (match pre ++ [(b, vb)] with [] => NULL | _ :: _ => b end) with b
    by (by destruct pre).
  cbn [fst snd pivot].
  erewrite bind_Done by by eapply set_next_Done.
  cbn [value].
  erewrite bind_Done
    by (eapply set_next_Done; [done | by rewrite lookup_insert_ne]).
  cbn [value].
  erewrite bind_Done
    by (apply get_size_Done; [done | by rewrite !lookup_insert_ne]).
  cbn [currentSize].
  erewrite bind_Done
    by (apply set_size_Done; [done | by rewrite !lookup_insert_ne]).
  cbn [head].
  eexists. split; [reflexivity|]. split; [|split; [done|]].
  - split; [done|]. exists h. split.
    + rewrite lookup_insert_eq. do 3 f_equal.
      unfold wrap32. rewrite !length_app in *. cbn [length] in *.
      rewrite Z.mod_small by lia. lia.
    + unfold chain. apply lseg_app. exists b. split.
      * eapply lseg_frame; [exact Hpre|]. intros a Ha.
        rewrite !lookup_insert_ne; [done | | | ].
        -- intros ->. done.
        -- intros ->. done.
        -- intros ->. destruct (lseg_lookup _ _ _ _ _ Hpre Ha) as (_ & c & Hc).
           congruence.
      * simpl. split; [done|]. split; [done|]. exists NULL. split; [|done].
        rewrite lookup_insert_ne by done. rewrite lookup_insert_ne by done.
        apply lookup_insert_eq.
  - rewrite lookup_insert_ne by done. apply lookup_insert_eq.
Qed.

(** ** [PushBack] followed by [RetrieveBack] *)

(** On a non-empty list the round trip works: the cell returned holds the
    value pushed, and the list is back to the cells and the size it had. *)
Lemma PushBack_RetrieveBack_nonempty fuel (m : mem) list c cs v :
  is_list m list (c :: cs) ->
  Z.of_nat (length (c :: cs)) + 1 < 2 ^ 32 ->
  (length (c :: cs) ≤ fuel)%nat ->
  ∃ m' x, (_ <- PushBack uninit_cell fuel list v ; RetrieveBack fuel list) m
          = Done x m' ∧
          get_value x m' = Done v m' ∧
          is_list m' list (c :: cs).
Proof.
  intros Hl Hsz Hfuel.
  destruct (PushBack_Done fuel m list (c :: cs) v Hl Hsz) as (m1 & Hpush & Hl1 & _);
    [lia|].
  destruct (nonempty_snoc (c :: cs)) as (pre & [b vb] & Hsplit); [done|].
  rewrite Hsplit in Hl1, Hsz, Hfuel. rewrite <- app_assoc in Hl1. cbn [app] in Hl1.
  rewrite length_app in Hsz, Hfuel. cbn [length] in Hsz, Hfuel.
  destruct (RetrieveBack_Done fuel m1 list pre b vb (fresh_addr m) v Hl1)
    as (m' & Hback & Hl' & Hxnn & Hx).
  { rewrite length_app. cbn [length]. lia. }
  { lia. }
  exists m', (fresh_addr m). split; [|split].
  - by erewrite bind_Done by exact Hpush.
  - by erewrite get_value_Done by done.
  - by rewrite Hsplit.
Qed.

(** On an empty list it does not: [PushBack] leaves one cell, and
    [RetrieveBack] on a one-cell list dereferences [NULL]. *)
Lemma PushBack_RetrieveBack_empty_Fault fuel (m : mem) list v :
  is_list m list [] ->
  (_ <- PushBack uninit_cell fuel list v ; RetrieveBack fuel list) m = Fault.
Proof.
  intros Hl.
  destruct (PushBack_Done fuel m list [] v Hl) as (m1 & Hpush & Hl1 & _);
    [simpl; lia | simpl; lia |].
  erewrite bind_Done by exact Hpush.
  by eapply RetrieveBack_singleton_Fault.
Qed.

(** ** [PushFront] and [RetrieveFront] *)

(** [PushFront] on a well-formed list: the fresh cell becomes the head, in
    front of the cells that were there, and the size goes up by one. *)
Lemma PushFront_Done (m : mem) list cs v :
  is_list m list cs ->
  Z.of_nat (length cs) + 1 < 2 ^ 32 ->
  ∃ m', PushFront uninit_cell list v m = Done tt m' ∧
        is_list m' list ((fresh_addr m, v) :: cs).
Proof.
  intros Hl Hsz. destruct cs as [|c cs].
  - rewrite (PushFront_empty m list v Hl). eexists. split; [reflexivity|].
    apply is_list_nil in Hl as (Hnn & Hlk).
    pose proof (fresh_addr_None m) as Hfresh.
    pose proof (fresh_addr_not_NULL m) as Hcnn.
    assert (E : list ≠ fresh_addr m) by (intros E; rewrite E in Hlk; congruence).
    split; [done|]. exists (fresh_addr m). split; [apply lookup_insert_eq|].
    unfold chain. simpl. split; [done|]. split; [done|]. exists NULL.
    split; [|done].
    rewrite lookup_insert_ne by done. apply lookup_insert_eq.
  - destruct Hl as (Hnn & h & Hlk & Hch). unfold PushFront.
    pose proof Hch as (_ & Hhnn & _).
    rewrite new_cell_Done.
    set (c0 := fresh_addr m).
    pose proof (fresh_addr_None m) as Hfresh.
    pose proof (fresh_addr_not_NULL m) as Hcnn. fold c0 in Hfresh, Hcnn.
    assert (Hcl : c0 ≠ list) by (intros E; rewrite E in Hfresh; congruence).
    erewrite bind_Done by (apply get_head_Done; [done | by rewrite lookup_insert_ne]).
    cbn [head]. rewrite decide_False by done.
    erewrite bind_Done by (apply get_head_Done; [done | by rewrite lookup_insert_ne]).
    cbn [head].
    erewrite bind_Done by (eapply set_next_Done; [done | apply lookup_insert_eq]).
    cbn [value]. rewrite insert_insert_eq.
    erewrite bind_Done by (apply set_head_Done; [done | by rewrite lookup_insert_ne]).
    cbn [currentSize].
    erewrite bind_Done by (apply get_size_Done; [done | apply lookup_insert_eq]).
    cbn [currentSize].
    erewrite set_size_Done by (done || apply lookup_insert_eq).
    cbn [head]. rewrite insert_insert_eq.
    eexists. split; [reflexivity|].
    split; [done|]. exists c0. split.
    + rewrite lookup_insert_eq. do 3 f_equal.
      unfold wrap32. cbn [length] in *. rewrite Z.mod_small by lia. lia.
    + unfold chain. apply lseg_cons. cbn [fst snd].
      split; [done|]. split; [done|]. exists h. split.
      * rewrite lookup_insert_ne by done. apply lookup_insert_eq.
      * eapply lseg_insert_list; [|by rewrite lookup_insert_ne].
        by apply lseg_insert_fresh.
Qed.

(** [RetrieveFront] on a non-empty well-formed list: the head cell is
    unlinked and returned with an absent [next], the second cell becomes
    the head and the size goes down by one. *)
Lemma RetrieveFront_Done (m : mem) list a v cs :
  is_list m list ((a, v) :: cs) ->
  Z.of_nat (length ((a, v) :: cs)) < 2 ^ 32 ->
  ∃ m', RetrieveFront list m = Done a m' ∧
        is_list m' list cs ∧
        m' !! a = Some (OCell (mkCell v NULL)).
Proof.
  intros (Hnn & h & Hlk & Hch) Hsz. unfold RetrieveFront.
  pose proof (chain_NoDup _ _ _ Hch) as Hnd. simpl in Hnd.
  apply NoDup_cons in Hnd as (Hacs & _).
  destruct Hch as (Hh & Hhnn & nx & Ha & Hrest). cbn [fst snd] in *. subst h.
  assert (Hal : a ≠ list) by (intros E; rewrite E in Ha; congruence).
  erewrite bind_Done by by apply Empty_Done.
  cbn [head currentSize]. rewrite (bool_decide_eq_false_2 (a = NULL)) by done.
  cbn [andb].
  erewrite bind_Done by by apply get_head_Done.
  erewrite bind_Done by by apply get_head_Done.
  cbn [head].
  erewrite bind_Done by by eapply get_next_Done.
  cbn [next].
  erewrite bind_Done by by apply set_head_Done.
  cbn [currentSize].
  erewrite bind_Done by (eapply set_next_Done; [done | by rewrite lookup_insert_ne]).
  cbn [value].
  erewrite bind_Done
    by (apply get_size_Done; [done | rewrite lookup_insert_ne by done; apply lookup_insert_eq]).
  cbn [currentSize].
  erewrite bind_Done
    by (apply set_size_Done; [done | rewrite lookup_insert_ne by done; apply lookup_insert_eq]).
  cbn [head].
  eexists. split; [reflexivity|]. split.
  - split; [done|]. exists nx. split.
    + rewrite lookup_insert_eq. do 3 f_equal.
      unfold wrap32. cbn [length] in *. rewrite Z.mod_small by lia. lia.
    + eapply lseg_insert_list;
        [|rewrite lookup_insert_ne by done; apply lookup_insert_eq].
      apply lseg_insert_ne; [|done].
      by eapply lseg_insert_list.
  - rewrite lookup_insert_ne by done. apply lookup_insert_eq.
Qed.

(** ** [InsertAt] inside the list *)

Lemma lseg_not_fresh (m : mem) p q cs a :
  lseg m p q cs -> m !! a = None -> a ∉ cs.*1.
Proof.
  intros Hseg Hnone Hin.
  destruct (lseg_lookup _ _ _ _ _ Hseg Hin) as (_ & c & Hc). congruence.
Qed.

Lemma lseg_not_list (m : mem) p q cs a l :
  lseg m p q cs -> m !! a = Some (OList l) -> a ∉ cs.*1.
Proof.
  intros Hseg Hl Hin.
  destruct (lseg_lookup _ _ _ _ _ Hseg Hin) as (_ & c & Hc). congruence.
Qed.

(** [InsertAt(list, p, v)] for [1 <= p <= size - 1]: the fresh cell is
    linked between the cells at [p - 1] and [p], and the size goes up by
    one. *)
Lemma InsertAt_inner_Done fuel (m : mem) list pre b vb t vt post v :
  is_list m list (pre ++ (b, vb) :: (t, vt) :: post) ->
  Z.of_nat (length (pre ++ (b, vb) :: (t, vt) :: post)) + 1 < 2 ^ 32 ->
  (length pre + 1 ≤ fuel)%nat ->
  ∃ m', InsertAt uninit_cell fuel list (Z.of_nat (length pre + 1)) v m = Done tt m' ∧
        is_list m' list (pre ++ (b, vb) :: (fresh_addr m, v) :: (t, vt) :: post).
Proof.
  intros (Hnn & h & Hlk & Hch) Hsz Hfuel. unfold InsertAt.
  set (cs := pre ++ (b, vb) :: (t, vt) :: post) in *.
  assert (Hlen : length cs = (length pre + 2 + length post)%nat).
  { unfold cs. rewrite length_app. simpl. lia. }
  assert (Hhnn : h ≠ NULL).
  { intros ->. apply chain_NULL in Hch. unfold cs in Hch. by destruct pre. }
  pose proof (chain_NoDup _ _ _ Hch) as Hnd. unfold cs in Hnd.
  rewrite fmap_app in Hnd. simpl in Hnd.
  apply NoDup_app in Hnd as (_ & Hdisj & Hnd2).
  apply NoDup_cons in Hnd2 as (Hb2 & _).
  assert (Hbpre : b ∉ pre.*1).
  { intros Hin. apply (Hdisj _ Hin). apply elem_of_cons. by left. }
  pose proof Hch as Hch'. unfold chain, cs in Hch'.
  apply lseg_app in Hch' as (r & Hpre & Hmid).
  pose proof Hmid as (Hr & Hbnn & nb & Hb & Htail). cbn [fst snd] in *. subst r.
  pose proof Htail as (Hnb & Htnn & _). cbn [fst snd] in *. subst nb.
  set (c := fresh_addr m).
  pose proof (fresh_addr_None m) as Hfresh.
  pose proof (fresh_addr_not_NULL m) as Hcnn. fold c in Hfresh, Hcnn.
  assert (Hcl : c ≠ list) by (intros E; rewrite E in Hfresh; congruence).
  assert (Hcb : c ≠ b) by (intros E; rewrite E in Hfresh; congruence).
  assert (Hbl : b ≠ list) by (intros E; rewrite E in Hb; congruence).
  assert (Hbtail : b ∉ ((t, vt) :: post).*1) by done.
  erewrite bind_Done by by apply resolve_tail_Done.
  rewrite decide_False by (unfold LIST_TAIL, INT64_MAX; lia).
  rewrite new_cell_Done. fold c.
  set (m1 := <[c := OCell (mkCell v NULL)]> m).
  assert (Hlk1 : m1 !! list = Some (OList (mkList h (Z.of_nat (length cs)))))
    by (unfold m1; by rewrite lookup_insert_ne).
  erewrite bind_Done by by apply out_of_bounds_Done.
  cbn [currentSize].
  replace (wrap32 (Z.of_nat (length cs) - 1)) with (Z.of_nat (length cs) - 1)
    by (unfold wrap32; rewrite Z.mod_small; lia).
  rewrite !bool_decide_eq_false_2 by lia. cbn [orb].
  erewrite bind_Done by by apply Empty_Done.
  cbn [head currentSize]. rewrite (bool_decide_eq_false_2 (h = NULL)) by done.
  cbn [andb].
  rewrite decide_False by lia.
  erewrite bind_Done by by apply get_size_Done.
  cbn [currentSize]. rewrite decide_False by lia.
  erewrite bind_Done by by apply get_head_Done.
  cbn [head].
  assert (Hseg : lseg m1 h t (pre ++ [(b, vb)])).
  { unfold m1. apply lseg_insert_fresh; [|done].
    apply lseg_app. exists b. split; [done|]. simpl. eauto 10. }
  pose proof (walk_before_Done fuel m1 h t (pre ++ [(b, vb)]) 0 NULL Hseg) as Hwalk.
  rewrite length_app in Hwalk. cbn [length] in Hwalk.
  rewrite Z.add_0_l in Hwalk.
  erewrite bind_Done by (apply Hwalk; lia).
  rewrite last_addr_snoc.
  replace (match pre ++ [(b, vb)] with [] => NULL | _ :: _ => b end) with b
    by (by destruct pre).
  cbn [fst snd pivot].
  erewrite bind_Done
    by (eapply set_next_Done; [done | unfold m1; by rewrite lookup_insert_ne]).
  cbn [value].
  assert (Hc2 : <[b := OCell (mkCell vb c)]> m1 !! c = Some (OCell (mkCell v NULL))).
  { rewrite lookup_insert_ne by done. apply lookup_insert_eq. }
  erewrite bind_Done by by eapply set_next_Done.
  cbn [value].
  erewrite bind_Done
    by (apply get_size_Done; [done | by rewrite !lookup_insert_ne]).
  cbn [currentSize].
  erewrite set_size_Done by (done || by rewrite !lookup_insert_ne).
  cbn [head].
  eexists. split; [reflexivity|].
  split; [done|]. exists h. split.
  - rewrite lookup_insert_eq. do 3 f_equal.
    unfold wrap32. rewrite Z.mod_small by lia.
    rewrite !length_app. cbn [length]. lia.
  - pose proof (lseg_not_fresh _ _ _ _ _ Hpre Hfresh) as Hcpre.
    pose proof (lseg_not_fresh _ _ _ _ _ Htail Hfresh) as Hctail.
    eapply lseg_insert_list; [|by rewrite !lookup_insert_ne].
    apply lseg_app. exists b. split.
    + do 3 (apply lseg_insert_ne; [|done]). done.
    + apply lseg_cons. cbn [fst snd]. split; [done|]. split; [done|].
      exists c. split.
      { rewrite lookup_insert_ne by done. apply lookup_insert_eq. }
      apply lseg_cons. cbn [fst snd]. split; [done|]. split; [done|].
      exists t. split; [apply lookup_insert_eq|].
      do 3 (apply lseg_insert_ne; [|done]). done.
Qed.

Lemma resolved_not_TAIL n position : resolved n position ≠ LIST_TAIL.
Proof.
  unfold resolved. destruct (decide (position = LIST_TAIL)); [|done].
  unfold wrap32, LIST_TAIL, INT64_MAX.
  pose proof (Z.mod_pos_bound (Z.of_nat n - 1) (2 ^ 32)). lia.
Qed.

Lemma InsertAt_resolved fuel (m : mem) list cs position v :
  is_list m list cs ->
  InsertAt uninit_cell fuel list position v m =
  InsertAt uninit_cell fuel list (resolved (length cs) position) v m.
Proof.
  intros (Hnn & h & Hlk & _). unfold InsertAt.
  assert (H1 : resolve_tail list position m
               = Done (resolved (length cs) position) m).
  { by erewrite resolve_tail_Done by done. }
  assert (H2 : resolve_tail list (resolved (length cs) position) m
               = Done (resolved (length cs) position) m).
  { unfold resolve_tail.
    by rewrite (decide_False _ _ (resolved_not_TAIL (length cs) position)). }
  erewrite bind_Done by exact H1. by erewrite (bind_Done _ _ _ _ _ H2).
Qed.

Lemma is_list_insert_fresh (m : mem) list cs a o :
  is_list m list cs -> m !! a = None -> is_list (<[a := o]> m) list cs.
Proof.
  intros (Hnn & h & Hlk & Hch) Hnone. split; [done|]. exists h. split.
  - rewrite lookup_insert_ne; [done|]. intros ->. congruence.
  - by apply lseg_insert_fresh.
Qed.

(** [InsertAt] preserves the invariant at every position: it either
    changes nothing in the list, or pushes at the front, or links the new
    cell inside. *)
Lemma InsertAt_invariant fuel (m : mem) list cs position v :
  is_list m list cs ->
  Z.of_nat (length cs) + 1 < 2 ^ 32 ->
  (length cs ≤ fuel)%nat ->
  ∃ m', InsertAt uninit_cell fuel list position v m = Done tt m' ∧
        invariant m' list.
Proof.
  intros Hl Hsz Hfuel. rewrite (InsertAt_resolved fuel m list cs position v Hl).
  pose proof (resolved_not_TAIL (length cs) position) as Hnt.
  set (rp := resolved (length cs) position) in *.
  set (m1 := <[fresh_addr m := OCell (mkCell v NULL)]> m).
  assert (Hl1 : is_list m1 list cs)
    by (apply is_list_insert_fresh; [done | apply fresh_addr_None]).
  pose proof Hl1 as (Hnn & h & Hlk1 & Hch1).
  destruct (decide (1 ≤ rp ≤ Z.of_nat (length cs) - 1)) as [Hinner|Hnot].
  - (* the new cell goes between two cells *)
    destruct (lookup_lt_is_Some_2 cs (Z.to_nat rp - 1)) as [[b vb] Hb]; [lia|].
    destruct (lookup_lt_is_Some_2 cs (Z.to_nat rp)) as [[t vt] Ht]; [lia|].
    assert (Hsplit : cs = take (Z.to_nat rp - 1) cs ++ (b, vb) :: (t, vt)
                            :: drop (S (Z.to_nat rp)) cs).
    { rewrite <- (take_drop (Z.to_nat rp - 1) cs) at 1. f_equal.
      rewrite (drop_S _ _ _ Hb). f_equal.
      replace (S (Z.to_nat rp - 1)) with (Z.to_nat rp) by lia.
      by rewrite (drop_S _ _ _ Ht). }
    set (pre := take (Z.to_nat rp - 1) cs) in *.
    set (post := drop (S (Z.to_nat rp)) cs) in *.
    assert (Hpre : length pre = (Z.to_nat rp - 1)%nat)
      by (unfold pre; rewrite length_take_le; lia).
    rewrite Hsplit in Hl, Hsz.
    destruct (InsertAt_inner_Done fuel m list pre b vb t vt post v Hl Hsz)
      as (m' & Hrun & Hl'); [lia|].
    replace (Z.of_nat (length pre + 1)) with rp in Hrun by lia.
    exists m'. split; [done|]. apply invariant_is_list. eauto.
  - unfold InsertAt.
    assert (H2 : resolve_tail list rp m = Done rp m).
    { unfold resolve_tail. by rewrite decide_False by done. }
    erewrite bind_Done by exact H2.
    rewrite new_cell_Done. fold m1.
    erewrite bind_Done by by apply out_of_bounds_Done.
    cbn [currentSize].
    destruct (bool_decide (rp < 0) || bool_decide (rp > wrap32 (Z.of_nat (length cs) - 1)))
      eqn:Hoob.
    { exists m1. split; [done|]. apply invariant_is_list. eauto. }
    apply orb_false_elim in Hoob as (Hlo & Hhi).
    apply bool_decide_eq_false_1 in Hlo. apply bool_decide_eq_false_1 in Hhi.
    erewrite bind_Done by by apply Empty_Done.
    cbn [head currentSize].
    destruct (decide (rp = 0)) as [Hz|Hnz].
    + (* position 0: [PushFront] allocates its own cell *)
      rewrite (bool_decide_eq_false_2 (rp ≠ 0)) by (intros ?; done).
      rewrite andb_false_r.
      destruct (PushFront_Done m1 list cs v Hl1 Hsz) as (m' & Hrun & Hl').
      exists m'. split; [done|]. apply invariant_is_list. eauto.
    + rewrite (bool_decide_eq_true_2 (rp ≠ 0)) by done. rewrite andb_true_r.
      destruct cs as [|c cs].
      * (* empty list, position other than 0 *)
        unfold chain in Hch1. simpl in Hch1. subst h.
        cbn [length]. rewrite !bool_decide_eq_true_2 by done. cbn [andb].
        exists m1. split; [done|]. apply invariant_is_list. eauto.
      * (* non-empty list: only positions up to size - 1 get here *)
        exfalso. rewrite wrap32_pred_length in Hhi by lia.
        cbn [length] in Hnot. lia.
Qed.

(** ** [Reserve] *)

Lemma Reserve_loop_eq fuel positions counter :
  Reserve_loop uninit_cell fuel positions counter =
  if decide (currentPosition counter = wrap64 (positions - 1)) then ret counter
  else match fuel with
       | O => timeout
       | S fuel' =>
           c <- malloc_cell uninit_cell ;
           _ <- set_next (pivot counter) c ;
           nx <- get_next (pivot counter) ;
           _ <- set_value nx NULL ;
           Reserve_loop uninit_cell fuel' positions
             (mkCounter nx (wrap64 (currentPosition counter + 1)))
       end.
Proof. by destruct fuel. Qed.

(** The loop, entered on a live cell [p] with [r] rounds to go: it links
    [r] fresh cells after [p]; [p] keeps the value it had, the fresh cells
    get the value [NULL], and the [next] of the cell the loop ends on is
    never written: it is what the cell had ([r = 0]) or what [malloc]
    returned. *)
Lemma Reserve_loop_Done fuel positions (m : mem) p cp k (r : nat) :
  p ≠ NULL -> m !! p = Some (OCell cp) ->
  wrap64 (positions - 1) = k + Z.of_nat r ->
  0 ≤ k -> k + Z.of_nat r < 2 ^ 64 -> (r ≤ fuel)%nat ->
  ∃ m' q cq cs,
    Reserve_loop uninit_cell fuel positions (mkCounter p k) m
    = Done (mkCounter q (k + Z.of_nat r)) m' ∧
    lseg m' p q cs ∧
    q ≠ NULL ∧ m' !! q = Some (OCell cq) ∧
    (cs.*2 ++ [value cq] = value cp :: replicate r NULL) ∧
    (match r with
     | O => next cq = next cp
     | S _ => ∃ m0, next cq = next (uninit_cell m0)
     end) ∧
    (∀ a o, m !! a = Some o -> a ≠ p -> m' !! a = Some o).
Proof.
  revert fuel m p cp k.
  induction r as [|r IH]; intros fuel m p cp k Hp Hlk Hpos Hk Hbound Hfuel;
    rewrite Reserve_loop_eq; cbn [pivot currentPosition].
  - rewrite decide_True by lia. rewrite Z.add_0_r.
    exists m, p, cp, []. simpl. eauto 10.
  - rewrite decide_False by lia.
    destruct fuel as [|fuel]; [lia|].
    set (c := fresh_addr m).
    pose proof (fresh_addr_None m) as Hfresh.
    pose proof (fresh_addr_not_NULL m) as Hcnn. fold c in Hfresh, Hcnn.
    assert (Hcp : c ≠ p) by (intros E; rewrite E in Hfresh; congruence).
    erewrite bind_Done by reflexivity. fold c.
    erewrite bind_Done
      by (eapply set_next_Done; [done | by rewrite lookup_insert_ne]).
    erewrite bind_Done by (eapply get_next_Done; [done | apply lookup_insert_eq]).
    cbn [next].
    erewrite bind_Done
      by (eapply set_value_Done;
          [done | rewrite lookup_insert_ne by done; apply lookup_insert_eq]).
    set (m3 := <[c := OCell (mkCell NULL (next (uninit_cell m)))]>
                 (<[p := OCell (mkCell (value cp) c)]>
                    (<[c := OCell (uninit_cell m)]> m))).
    unfold wrap64. rewrite Z.mod_small by lia.
    destruct (IH fuel m3 c (mkCell NULL (next (uninit_cell m))) (k + 1))
      as (m' & q & cq & cs & Hrun & Hseg & Hq & Hlq & Hvals & Hnext & Hframe);
      [done | apply lookup_insert_eq | lia | lia | lia | lia |].
    assert (Hp3 : m3 !! p = Some (OCell (mkCell (value cp) c))).
    { unfold m3. rewrite lookup_insert_ne by done. apply lookup_insert_eq. }
    exists m', q, cq, ((p, value cp) :: cs).
    replace (k + Z.of_nat (S r)) with (k + 1 + Z.of_nat r) by lia.
    split; [done|]. split; [|split; [done|]; split; [done|]; split; [|split]].
    + apply lseg_cons. cbn [fst snd]. split; [done|]. split; [done|].
      exists c. split; [|done]. by apply Hframe.
    + rewrite fmap_cons. cbn [snd app]. rewrite Hvals. done.
    + destruct r; [|done]. exists m. by rewrite Hnext.
    + intros a o Ha Hap. apply Hframe.
      * unfold m3. rewrite !lookup_insert_ne; [done | | | ];
          intros E; rewrite <- E in Ha; congruence.
      * intros E. rewrite E in Ha. congruence.
Qed.

(** [Reserve(n)] for [n >= 1]: the header has [currentSize = n] (cut to 32
    bits) and [n] cells are linked from [head].  The cells allocated in the
    loop hold [NULL]; the head cell's value is what [malloc] returned, and
    the chain leaves its last cell through a [next] that was never
    written. *)
Lemma Reserve_Done fuel positions (m : mem) :
  1 ≤ positions < 2 ^ 64 ->
  (Z.to_nat (positions - 1) ≤ fuel)%nat ->
  let list := fresh_addr m in
  let m1 := <[list := OList (uninit_list m)]> m in
  ∃ m' h q cs,
    Reserve uninit_cell uninit_list fuel positions m = Done list m' ∧
    m' !! list = Some (OList (mkList h (wrap32 positions))) ∧
    lseg m' h q cs ∧
    length cs = Z.to_nat positions ∧
    cs.*2 = value (uninit_cell m1) :: replicate (Z.to_nat (positions - 1)) NULL ∧
    ∃ m0, q = next (uninit_cell m0).
Proof.
  intros Hpos Hfuel list m1. unfold Reserve.
  pose proof (fresh_addr_None m) as Hfresh.
  pose proof (fresh_addr_not_NULL m) as Hlnn. fold list in Hfresh, Hlnn.
  erewrite bind_Done by reflexivity. fold list. fold m1.
  erewrite bind_Done by reflexivity.
  set (c := fresh_addr m1).
  pose proof (fresh_addr_None m1) as Hfresh1.
  pose proof (fresh_addr_not_NULL m1) as Hcnn. fold c in Hfresh1, Hcnn.
  assert (Hcl : c ≠ list).
  { intros E. rewrite E in Hfresh1. unfold m1 in Hfresh1.
    by rewrite lookup_insert_eq in Hfresh1. }
  erewrite bind_Done
    by (eapply set_head_Done;
        [done | rewrite lookup_insert_ne by done; apply lookup_insert_eq]).
  erewrite bind_Done by (eapply get_head_Done; [done | apply lookup_insert_eq]).
  cbn [head].
  set (m3 := <[list := OList (mkList c (currentSize (uninit_list m)))]>
               (<[c := OCell (uninit_cell m1)]> m1)).
  assert (Hc3 : m3 !! c = Some (OCell (uninit_cell m1))).
  { unfold m3. rewrite lookup_insert_ne by done. apply lookup_insert_eq. }
  destruct (Reserve_loop_Done fuel positions m3 c (uninit_cell m1) 0
              (Z.to_nat (positions - 1)) Hcnn Hc3)
    as (m' & q & cq & cs & Hrun & Hseg & Hq & Hlq & Hvals & Hnext & Hframe);
    [unfold wrap64; rewrite Z.mod_small by lia; lia | lia | lia | lia |].
  erewrite bind_Done by exact Hrun.
  assert (Hl' : m' !! list = Some (OList (mkList c (currentSize (uninit_list m))))).
  { apply Hframe; [apply lookup_insert_eq | done]. }
  erewrite bind_Done by by eapply set_size_Done.
  cbn [head].
  exists (<[list := OList (mkList c (wrap32 positions))]> m'),
         c, (next cq), (cs ++ [(q, value cq)]).
  split; [done|]. split; [apply lookup_insert_eq|]. split; [|split; [|split]].
  - eapply lseg_insert_list; [|exact Hl'].
    apply lseg_app. exists q. split; [done|].
    apply lseg_cons. cbn [fst snd]. split; [done|]. split; [done|].
    exists (next cq). split; [by destruct cq | done].
  - apply (f_equal length) in Hvals.
    rewrite length_app, length_fmap in Hvals. cbn [length] in Hvals.
    rewrite length_replicate in Hvals. rewrite length_app. cbn [length]. lia.
  - rewrite fmap_app. exact Hvals.
  - destruct (Z.to_nat (positions - 1)); [|done].
    exists m1. by rewrite Hnext.
Qed.

(** ** [Free] *)

Lemma Free_loop_eq fuel counter :
  Free_loop fuel counter =
  (nx <- get_next (pivot counter) ;
   if decide (nx = NULL) then ret tt
   else match fuel with
        | O => timeout
        | S fuel' =>
            let current := pivot counter in
            nx' <- get_next (pivot counter) ;
            _ <- free current ;
            Free_loop fuel' (mkCounter nx' (currentPosition counter))
        end).
Proof. by destruct fuel. Qed.

(** The loop of [Free] releases every cell of the chain but the last and
    touches nothing else. *)
Lemma Free_loop_Done fuel (m : mem) p cs t vt k :
  chain m p (cs ++ [(t, vt)]) -> (length cs ≤ fuel)%nat ->
  ∃ m', Free_loop fuel (mkCounter p k) m = Done tt m' ∧
        (∀ a, a ∉ cs.*1 -> m' !! a = m !! a).
Proof.
  revert fuel m p. induction cs as [|[a v] cs IH]; intros fuel m p Hch Hfuel;
    rewrite Free_loop_eq; cbn [pivot currentPosition].
  - destruct Hch as (Hp & Hnn & nx & Hlk & Hnx). cbn [fst snd] in *. subst p.
    simpl in Hnx. subst nx.
    erewrite bind_Done by by eapply get_next_Done.
    cbn [next]. rewrite decide_True by done. by exists m.
  - pose proof (chain_NoDup _ _ _ Hch) as Hnd. simpl in Hnd.
    apply NoDup_cons in Hnd as (Hnotin & _).
    destruct Hch as (Hp & Hnn & nx & Hlk & Hrest). cbn [fst snd] in *. subst p.
    pose proof (lseg_snoc_not_NULL _ _ _ _ _ Hrest) as Hnx.
    erewrite bind_Done by by eapply get_next_Done.
    cbn [next]. rewrite decide_False by done.
    destruct fuel as [|fuel]; [simpl in Hfuel; lia|].
    cbv zeta.
    erewrite bind_Done by by eapply get_next_Done.
    cbn [next].
    assert (Hfree : free a m = Done tt (delete a m)).
    { unfold free. rewrite decide_False by done. by rewrite Hlk. }
    erewrite bind_Done by exact Hfree.
    destruct (IH fuel (delete a m) nx) as (m' & Hrun & Hframe).
    { apply lseg_delete_ne; [done | exact Hnotin]. }
    { simpl in Hfuel. lia. }
    exists m'. split; [done|].
    intros a' Ha'. rewrite fmap_cons in Ha'. cbn [fst] in Ha'.
    apply not_elem_of_cons in Ha' as (Hne & Ha').
    rewrite (Hframe a' Ha'). by apply lookup_delete_ne.
Qed.

(** [Free] on a well-formed list returns, releases the header, and leaves
    every object outside the list as it was. *)
Lemma Free_Done fuel (m : mem) list cs :
  is_list m list cs -> (length cs ≤ S fuel)%nat ->
  ∃ m', Free fuel list m = Done tt m' ∧
        m' !! list = None ∧
        (∀ a, a ≠ list -> a ∉ cs.*1 -> m' !! a = m !! a).
Proof.
  intros (Hnn & h & Hlk & Hch) Hfuel. unfold Free.
  erewrite bind_Done by by apply get_head_Done.
  cbn [head].
  destruct (decide (cs = [])) as [->|Hne].
  - unfold chain in Hch. simpl in Hch. subst h. rewrite decide_True by done.
    unfold free. rewrite decide_False by done. rewrite Hlk.
    eexists. split; [reflexivity|]. split; [apply lookup_delete_eq|].
    intros a Ha _. by apply lookup_delete_ne.
  - assert (Hh : h ≠ NULL).
    { intros ->. by apply chain_NULL in Hch. }
    rewrite decide_False by done.
    erewrite bind_Done by by apply get_head_Done.
    cbn [head].
    destruct (nonempty_snoc cs Hne) as (cs0 & [t vt] & ->).
    rewrite length_app in Hfuel. cbn [length] in Hfuel.
    destruct (Free_loop_Done fuel m h cs0 t vt 0 Hch) as (m1 & Hrun & Hframe); [lia|].
    erewrite bind_Done by exact Hrun.
    assert (Hl0 : list ∉ cs0.*1).
    { intros Hin. unfold chain in Hch. apply lseg_app in Hch as (r & Hseg0 & _).
      by apply (lseg_not_list _ _ _ _ _ _ Hseg0 Hlk). }
    assert (Hlk1 : m1 !! list = Some (OList (mkList h (Z.of_nat (length (cs0 ++ [(t, vt)]))))))
      by (by rewrite Hframe).
    erewrite bind_Done by by apply set_size_Done.
    unfold free. rewrite decide_False by done. rewrite lookup_insert_eq.
    eexists. split; [reflexivity|]. split; [apply lookup_delete_eq|].
    intros a Ha Hnotin. rewrite lookup_delete_ne by done.
    rewrite lookup_insert_ne by done. apply Hframe.
    intros Hin. apply Hnotin. rewrite fmap_app. apply elem_of_app. by left.
Qed.

(** ** [DryNulls] *)

Lemma DryNulls_loop_eq fuel n list newList counter :
  DryNulls_loop uninit_cell fuel n list newList counter =
  (s <- get_size list ;
   if decide (currentPosition counter = s) then ret tt
   else match n with
        | O => timeout
        | S n' =>
            v <- get_value (pivot counter) ;
            _ <- (if decide (v ≠ NULL) then
                    v' <- get_value (pivot counter) ;
                    PushBack uninit_cell fuel newList v'
                  else ret tt) ;
            nx <- get_next (pivot counter) ;
            DryNulls_loop uninit_cell fuel n' list newList
              (mkCounter nx (wrap64 (currentPosition counter + 1)))
        end).
Proof. by destruct n. Qed.

Lemma last_addr_elem_of cs : cs ≠ [] -> last_addr cs ∈ cs.*1.
Proof.
  intros Hne. destruct (nonempty_snoc cs Hne) as (cs0 & [a v] & ->).
  rewrite last_addr_snoc, fmap_app. apply elem_of_app. right.
  apply list_elem_of_singleton. done.
Qed.

(** The loop of [DryNulls] over the rest of the old chain, given that the
    new list is well formed when the loop is entered: the non-absent values
    of the rest are appended to the new list in order, and the old list's
    header and cells ([old]) are not written. *)
Lemma DryNulls_loop_Done fuel n (m : mem) list newList hl len
    (old : Datatypes.list ptr) rest acc p k :
  list ≠ NULL -> list ≠ newList ->
  m !! list = Some (OList (mkList hl len)) ->
  lseg m p NULL rest ->
  (∀ a, a ∈ rest.*1 -> a ∈ old) ->
  (∀ a, a ∈ old -> a ≠ NULL ∧ ∃ c, m !! a = Some (OCell c)) ->
  len = k + Z.of_nat (length rest) -> 0 ≤ k -> len < 2 ^ 32 ->
  is_list m newList acc ->
  (∀ a, a ∈ acc.*1 -> a ∉ old) ->
  Z.of_nat (length acc + length rest) < 2 ^ 32 ->
  (length acc + length rest ≤ S fuel)%nat ->
  (length rest ≤ n)%nat ->
  ∃ m' acc',
    DryNulls_loop uninit_cell fuel n list newList (mkCounter p k) m = Done tt m' ∧
    is_list m' newList (acc ++ acc') ∧
    acc'.*2 = filter (λ v, v ≠ NULL) rest.*2 ∧
    m' !! list = Some (OList (mkList hl len)) ∧
    (∀ a, a ∈ acc'.*1 -> a ∉ old) ∧
    (∀ a, a ∈ old -> m' !! a = m !! a).
Proof.
  intros Hnn Hdiff. revert n m acc p k.
  induction rest as [|[a v] rest IH];
    intros n m acc p k Hlk Hseg Hsub Hlive Hlen Hk Hsz Hnew Hdisj Hcap Hfuel Hn;
    rewrite DryNulls_loop_eq; cbn [pivot currentPosition];
    (erewrite bind_Done by by apply get_size_Done); cbn [currentSize].
  - cbn [length] in Hlen. rewrite decide_True by lia.
    exists m, []. rewrite app_nil_r.
    split; [done|]. split; [done|]. split; [done|]. split; [done|].
    split; [|done]. intros a Ha. by apply elem_of_nil in Ha.
  - cbn [length] in *. rewrite decide_False by lia.
    destruct n as [|n]; [lia|].
    destruct Hseg as (Hp & Hann & nx & Ha & Hrest). cbn [fst snd] in *. subst p.
    erewrite bind_Done by by eapply get_value_Done.
    cbn [value].
    assert (Haold : a ∈ old).
    { apply Hsub. rewrite fmap_cons. apply elem_of_cons. by left. }
    assert (Hsub' : ∀ a0, a0 ∈ rest.*1 -> a0 ∈ old).
    { intros a0 Ha0. apply Hsub. rewrite fmap_cons. apply elem_of_cons. by right. }
    unfold wrap64. rewrite Z.mod_small by lia.
    destruct (decide (v ≠ NULL)) as [Hv|Hv].
    + (* a value is carried over *)
      destruct (PushBack_Done fuel m newList acc v Hnew) as (m1 & Hpush & Hnew1 & Hframe);
        [lia | lia |].
      assert (Hinner : (v' <- get_value a ; PushBack uninit_cell fuel newList v') m
                       = Done tt m1).
      { erewrite bind_Done by by eapply get_value_Done. exact Hpush. }
      erewrite bind_Done by exact Hinner.
      assert (Hkeep : ∀ a0, a0 ∈ old -> m1 !! a0 = m !! a0).
      { intros a0 Ha0. destruct (Hlive a0 Ha0) as (Ha0nn & c0 & Hc0).
        destruct Hnew as (_ & hn & Hlkn & Hchn).
        apply Hframe.
        - intros E. rewrite E in Hc0. congruence.
        - intros E. rewrite E in Hc0. rewrite fresh_addr_None in Hc0. congruence.
        - destruct (decide (acc = [])) as [->|Hacc]; [done|].
          intros E. apply (Hdisj a0); [|done].
          rewrite E. by apply last_addr_elem_of. }
      assert (Hlk1 : m1 !! list = Some (OList (mkList hl len))).
      { destruct Hnew as (_ & hn & Hlkn & Hchn). rewrite Hframe; [done | done | | ].
        - intros E. rewrite E in Hlk. rewrite fresh_addr_None in Hlk. congruence.
        - destruct (decide (acc = [])) as [->|Hacc]; [done|].
          intros E. pose proof (last_addr_elem_of acc Hacc) as Hin.
          rewrite <- E in Hin. by apply (lseg_not_list _ _ _ _ _ _ Hchn Hlk). }
      erewrite bind_Done by (eapply get_next_Done; [done | by rewrite Hkeep]).
      cbn [next].
      destruct (IH n m1 (acc ++ [(fresh_addr m, v)]) nx (k + 1))
        as (m' & acc' & Hrun & Hnew' & Hvals & Hlk' & Hdisj' & Hkeep').
      { done. }
      { eapply lseg_frame; [exact Hrest|]. intros a0 Ha0. apply Hkeep. by apply Hsub'. }
      { done. }
      { intros a0 Ha0. rewrite (Hkeep a0 Ha0). by apply Hlive. }
      { lia. } { lia. } { lia. } { done. }
      { intros a0 Ha0. rewrite fmap_app in Ha0. apply elem_of_app in Ha0 as [Ha0|Ha0].
        - by apply Hdisj.
        - apply list_elem_of_singleton in Ha0. cbn [fst] in Ha0. subst a0.
          intros Hin. destruct (Hlive _ Hin) as (_ & c0 & Hc0).
          rewrite fresh_addr_None in Hc0. congruence. }
      { rewrite length_app. cbn [length]. lia. }
      { rewrite length_app. cbn [length]. lia. }
      { lia. }
      exists m', ((fresh_addr m, v) :: acc').
      split; [done|]. split; [by rewrite <- app_assoc in Hnew'|].
      split; [|split; [done|]; split].
      * rewrite !fmap_cons. cbn [snd]. rewrite filter_cons_True by done.
        by rewrite Hvals.
      * intros a0 Ha0. rewrite fmap_cons in Ha0. cbn [fst] in Ha0.
        apply elem_of_cons in Ha0 as [->|Ha0]; [|by apply Hdisj'].
        intros Hin. destruct (Hlive _ Hin) as (_ & c0 & Hc0).
        rewrite fresh_addr_None in Hc0. congruence.
      * intros a0 Ha0. rewrite (Hkeep' a0 Ha0). by apply Hkeep.
    + (* an absent value is skipped *)
      erewrite (bind_Done (ret tt)) by reflexivity.
      erewrite bind_Done by by eapply get_next_Done.
      cbn [next].
      destruct (IH n m acc nx (k + 1))
        as (m' & acc' & Hrun & Hnew' & Hvals & Hlk' & Hdisj' & Hkeep');
        try done; try lia.
      exists m', acc'. split; [done|]. split; [done|].
      split; [|done].
      rewrite fmap_cons. cbn [snd]. by rewrite filter_cons_False by done.
Qed.

(** What [DryNulls] returns on an empty list is the header block exactly as
    [malloc] handed it out. *)
Lemma DryNulls_empty_unwritten_header fuel (m : mem) list :
  is_list m list [] ->
  ∃ m', DryNulls uninit_cell uninit_list fuel list m = Done (fresh_addr m) m' ∧
        m' !! fresh_addr m = Some (OList (uninit_list m)).
Proof.
  intros Hl. pose proof Hl as (Hnn & Hlk)%is_list_nil. unfold DryNulls.
  pose proof (fresh_addr_None m) as Hfresh.
  assert (Hne : fresh_addr m ≠ list) by (intros E; rewrite E in Hfresh; congruence).
  erewrite bind_Done by by apply get_head_Done.
  erewrite bind_Done by reflexivity.
  cbn [head].
  assert (Hloop : DryNulls_loop uninit_cell fuel fuel list (fresh_addr m)
                    (mkCounter NULL 0) (<[fresh_addr m := OList (uninit_list m)]> m)
                  = Done tt (<[fresh_addr m := OList (uninit_list m)]> m)).
  { rewrite DryNulls_loop_eq.
    assert (Hsz : get_size list (<[fresh_addr m := OList (uninit_list m)]> m)
                  = Done 0 (<[fresh_addr m := OList (uninit_list m)]> m)).
    { apply (get_size_Done _ list (mkList NULL 0)); [done|].
      by rewrite lookup_insert_ne. }
    by erewrite bind_Done by exact Hsz. }
  erewrite bind_Done by exact Hloop.
  destruct (Free_Done fuel (<[fresh_addr m := OList (uninit_list m)]> m) list [])
    as (m' & Hfree & _ & Hframe); [by apply is_list_insert_fresh | simpl; lia |].
  erewrite bind_Done by exact Hfree.
  exists m'. split; [done|].
  rewrite Hframe; [apply lookup_insert_eq | done | apply not_elem_of_nil].
Qed.

(** When the header block happens to be zero-filled, [DryNulls] on a
    well-formed list returns a well-formed list of the non-absent values,
    in their order, and the old header is released. *)
Lemma DryNulls_zeroed_header fuel (m : mem) list cs :
  is_list m list cs ->
  Z.of_nat (length cs) < 2 ^ 32 ->
  (length cs ≤ fuel)%nat ->
  uninit_list m = mkList NULL 0 ->
  ∃ m' cs',
    DryNulls uninit_cell uninit_list fuel list m = Done (fresh_addr m) m' ∧
    is_list m' (fresh_addr m) cs' ∧
    cs'.*2 = filter (λ v, v ≠ NULL) cs.*2 ∧
    m' !! list = None.
Proof.
  intros Hl Hsz Hfuel Hzero. pose proof Hl as (Hnn & h & Hlk & Hch).
  unfold DryNulls.
  set (nl := fresh_addr m).
  pose proof (fresh_addr_None m) as Hfresh.
  pose proof (fresh_addr_not_NULL m) as Hnlnn. fold nl in Hfresh, Hnlnn.
  assert (Hne : list ≠ nl) by (intros E; rewrite E in Hlk; congruence).
  erewrite bind_Done by by apply get_head_Done.
  erewrite bind_Done by reflexivity.
  cbn [head]. fold nl. rewrite Hzero.
  set (m1 := <[nl := OList (mkList NULL 0)]> m).
  assert (Hl1 : is_list m1 list cs) by (by apply is_list_insert_fresh).
  assert (Hlk1 : m1 !! list = Some (OList (mkList h (Z.of_nat (length cs)))))
    by (unfold m1; by rewrite lookup_insert_ne).
  assert (Hch1 : lseg m1 h NULL cs) by (unfold m1; by apply lseg_insert_fresh).
  assert (Hlive : ∀ a, a ∈ cs.*1 -> a ≠ NULL ∧ ∃ c, m1 !! a = Some (OCell c))
    by (intros a Ha; by eapply lseg_lookup).
  assert (Hnew0 : is_list m1 nl []).
  { apply is_list_nil. split; [done|]. apply lookup_insert_eq. }
  assert (Hdisj0 : ∀ a, a ∈ (@nil (ptr * ptr)).*1 -> a ∉ cs.*1)
    by (intros a Ha; by apply elem_of_nil in Ha).
  destruct (DryNulls_loop_Done fuel fuel m1 list nl h (Z.of_nat (length cs))
              cs.*1 cs [] h 0 Hnn Hne Hlk1 Hch1 (λ a Ha, Ha) Hlive)
    as (m2 & cs' & Hrun & Hnew & Hvals & Hlk2 & Hdisj & Hkeep);
    [lia | lia | lia | exact Hnew0 | exact Hdisj0 | simpl; lia | simpl; lia | lia |].
  erewrite bind_Done by exact Hrun.
  assert (Hl2 : is_list m2 list cs).
  { split; [done|]. exists h. split; [done|].
    eapply lseg_frame; [exact Hch1|]. intros a Ha. by apply Hkeep. }
  destruct (Free_Done fuel m2 list cs Hl2) as (m3 & Hfree & Hgone & Hframe); [lia|].
  erewrite bind_Done by exact Hfree.
  exists m3, cs'. split; [done|]. split; [|done].
  simpl in Hnew. destruct Hnew as (_ & hn & Hlkn & Hchn).
  split; [done|]. exists hn. split.
  - rewrite Hframe; [done | done |].
    intros Hin. destruct (Hlive _ Hin) as (_ & c & Hc).
    rewrite <- (Hkeep _ Hin) in Hc. congruence.
  - eapply lseg_frame; [exact Hchn|]. intros a Ha. apply Hframe.
    + intros E. subst a. by apply (lseg_not_list _ _ _ _ _ _ Hchn Hlk2).
    + by apply Hdisj.
Qed.

(** ** Summary *)

(** With an allocator that hands out zero-filled blocks, [Reserve(n)]
    does return a well-formed list of [n] absent values. *)
Lemma Reserve_zero_filled fuel positions (m : mem) :
  (∀ m0, uninit_cell m0 = mkCell NULL NULL) ->
  1 ≤ positions < 2 ^ 32 ->
  (Z.to_nat (positions - 1) ≤ fuel)%nat ->
  ∃ m' cs,
    Reserve uninit_cell uninit_list fuel positions m = Done (fresh_addr m) m' ∧
    is_list m' (fresh_addr m) cs ∧
    cs.*2 = replicate (Z.to_nat positions) NULL.
Proof.
  intros Hzero Hpos Hfuel.
  destruct (Reserve_Done fuel positions m) as
    (m' & h & q & cs & Hrun & Hlk & Hseg & Hlen & Hvals & m0 & Hq); [lia | done |].
  rewrite Hzero in Hq, Hvals. cbn [next value] in Hq, Hvals. subst q.
  exists m', cs. split; [done|]. split.
  - split; [apply fresh_addr_not_NULL|]. exists h. split; [|done].
    rewrite Hlk. do 3 f_equal. unfold wrap32. rewrite Z.mod_small by lia. lia.
  - rewrite Hvals. replace (Z.to_nat positions) with (S (Z.to_nat (positions - 1))) by lia.
    reflexivity.
Qed.

(** The operations that keep the invariant on every well-formed list:
    [PushFront], [PushBack], [InsertAt] and [RetrieveFront]; [RetrieveBack]
    does on lists of two cells or more. *)
Lemma invariant_preserved fuel (m : mem) list cs position v :
  is_list m list cs ->
  Z.of_nat (length cs) + 1 < 2 ^ 32 ->
  (length cs ≤ fuel)%nat ->
  (∃ m', PushFront uninit_cell list v m = Done tt m' ∧ invariant m' list) ∧
  (∃ m', PushBack uninit_cell fuel list v m = Done tt m' ∧ invariant m' list) ∧
  (∃ m', InsertAt uninit_cell fuel list position v m = Done tt m' ∧ invariant m' list) ∧
  (∃ m' r, RetrieveFront list m = Done r m' ∧ invariant m' list) ∧
  ((2 ≤ length cs)%nat ->
   ∃ m' r, RetrieveBack fuel list m = Done r m' ∧ invariant m' list).
Proof.
  intros Hl Hsz Hfuel. split; [|split; [|split; [|split]]].
  - destruct (PushFront_Done m list cs v Hl Hsz) as (m' & Hrun & Hl').
    exists m'. split; [done|]. apply invariant_is_list. eauto.
  - destruct (PushBack_Done fuel m list cs v Hl Hsz) as (m' & Hrun & Hl' & _); [lia|].
    exists m'. split; [done|]. apply invariant_is_list. eauto.
  - by apply (InsertAt_invariant fuel m list cs).
  - destruct cs as [|[a w] cs].
    + exists m, NULL. split; [|apply invariant_is_list; eauto].
      apply is_list_nil in Hl as (Hnn & Hlk). unfold RetrieveFront.
      by erewrite bind_Done by by apply Empty_Done.
    + destruct (RetrieveFront_Done m list a w cs Hl) as (m' & Hrun & Hl' & _); [lia|].
      exists m', a. split; [done|]. apply invariant_is_list. eauto.
  - intros Htwo.
    destruct (nonempty_snoc cs) as (cs1 & [t vt] & ->).
    { intros ->. simpl in Htwo. lia. }
    destruct (nonempty_snoc cs1) as (pre & [b vb] & ->).
    { intros ->. simpl in Htwo. lia. }
    rewrite <- app_assoc in Hl, Hsz, Hfuel. cbn [app] in Hl, Hsz, Hfuel.
    rewrite length_app in Hfuel. cbn [length] in Hfuel.
    destruct (RetrieveBack_Done fuel m list pre b vb t vt Hl) as (m' & Hrun & Hl' & _);
      [lia | lia |].
    exists m', t. split; [done|]. apply invariant_is_list. eauto.
Qed.

End Correctness.

(** * The operations at concrete lists *)

Lemma is_list_mem_empty : is_list mem_empty 1%N [].
Proof. by apply is_list_nil. Qed.

Lemma is_list_mem_5_10_20 :
  is_list mem_5_10_20 1%N [(4%N, 5%N); (2%N, 10%N); (3%N, 20%N)].
Proof.
  split; [done|]. exists 4%N. split; [done|].
  by apply (cells_from_sound 3).
Qed.

(** The list of the end-to-end scenario is what the three pushes build. *)
Lemma mem_5_10_20_built :
  (_ <- PushBack zeroed_cell 3 1%N 10%N ;
   _ <- PushBack zeroed_cell 3 1%N 20%N ;
   PushFront zeroed_cell 1%N 5%N) mem_empty = Done tt mem_5_10_20.
Proof. vm_compute. reflexivity. Qed.

(** C1. Not every operation preserves the invariant.  On the well-formed
    list [5, 10, 20], [RemoveAt(list, 1)] returns with the cell unlinked
    and [currentSize] still 3, so the chain no longer has [currentSize]
    cells.  On the well-formed one-cell list [10], [RetrieveBack]
    dereferences [NULL] and returns nothing. *)
Theorem RemoveAt_RetrieveBack_break_invariant :
  invariant mem_5_10_20 1%N ∧
  (∃ m', RemoveAt 3 1%N 1 mem_5_10_20 = Done tt m' ∧
         m' !! 1%N = Some (OList (mkList 4%N 3)) ∧
         chain m' 4%N [(4%N, 5%N); (3%N, 20%N)] ∧
         ¬ invariant m' 1%N) ∧
  invariant mem_10 1%N ∧
  RetrieveBack 1 1%N mem_10 = Fault.
Proof.
  split; [by apply invariant_check_spec|]. split.
  - eexists. split; [vm_compute; reflexivity|].
    split; [done|]. split; [by apply (cells_from_sound 2)|].
    rewrite invariant_check_spec. by vm_compute.
  - split; [by apply invariant_check_spec | by vm_compute].
Qed.

(** C2. [RemoveAt] at a valid position of a well-formed list does not do
    what the removal contract says.  On [5, 10, 20]: at position 1 the cell
    is unlinked and released and the two others keep their contents, but
    [currentSize] stays 3; at position 0 the call dereferences [NULL]
    ([beforeTarget] is never set) instead of making the second cell the
    head. *)
Theorem RemoveAt_keeps_size_and_faults_at_head :
  (∃ m', RemoveAt 3 1%N 1 mem_5_10_20 = Done tt m' ∧
         m' !! 1%N = Some (OList (mkList 4%N 3)) ∧
         m' !! 4%N = Some (OCell (mkCell 5%N 3%N)) ∧
         m' !! 3%N = Some (OCell (mkCell 20%N NULL)) ∧
         m' !! 2%N = None) ∧
  RemoveAt 3 1%N 0 mem_5_10_20 = Fault.
Proof.
  split; [|by vm_compute].
  eexists. split; [vm_compute; reflexivity|]. done.
Qed.

(** C3. [InsertAt(list, size, v)] on a non-empty list is not [PushBack]:
    on [5, 10, 20] the call with position 3 returns at the bounds test and
    the list is still [5, 10, 20] with size 3, whereas [PushBack] yields
    [5, 10, 20, 55] with size 4. *)
Theorem InsertAt_at_size_is_not_PushBack :
  (∃ m', InsertAt zeroed_cell 3 1%N 3 55%N mem_5_10_20 = Done tt m' ∧
         is_list m' 1%N [(4%N, 5%N); (2%N, 10%N); (3%N, 20%N)]) ∧
  (∃ m', PushBack zeroed_cell 3 1%N 55%N mem_5_10_20 = Done tt m' ∧
         is_list m' 1%N [(4%N, 5%N); (2%N, 10%N); (3%N, 20%N); (5%N, 55%N)]).
Proof.
  split.
  - eexists. split; [vm_compute; reflexivity|].
    split; [done|]. exists 4%N. split; [done|]. by apply (cells_from_sound 3).
  - eexists. split; [vm_compute; reflexivity|].
    split; [done|]. exists 4%N. split; [done|]. by apply (cells_from_sound 4).
Qed.

(** C4. [Reserve(3)] when [malloc] hands out blocks that are not
    zero-filled: the list has [currentSize = 3] and three linked cells, but
    the head cell's [value] is whatever the block held (it is never
    written) and so is the last cell's [next]; the chain does not end in an
    absent [next] and the invariant does not hold. *)
Theorem Reserve_leaves_fields_unwritten :
  ∃ m', Reserve stale_cell zeroed_list 3 3 ∅ = Done 1%N m' ∧
        m' !! 1%N = Some (OList (mkList 2%N 3)) ∧
        m' !! 2%N = Some (OCell (mkCell 77%N 3%N)) ∧
        m' !! 3%N = Some (OCell (mkCell NULL 4%N)) ∧
        m' !! 4%N = Some (OCell (mkCell NULL 99%N)) ∧
        ¬ invariant m' 1%N.
Proof.
  eexists. split; [vm_compute; reflexivity|].
  do 4 (split; [done|]).
  rewrite invariant_check_spec. by vm_compute.
Qed.

(** C5. [DryNulls] never writes the header it allocates for the new list.
    When that block is not zero-filled, on the well-formed list
    [11, absent, 12, absent, 13] the first [PushBack] follows the stale
    [head] and the call faults; on an empty list the header comes back as
    it was allocated, stale [head] and stale [currentSize].  When the block
    happens to be zero-filled the three values come out in order. *)
Theorem DryNulls_reads_unwritten_header :
  invariant mem_with_nulls 1%N ∧
  DryNulls zeroed_cell stale_list 5 1%N mem_with_nulls = Fault ∧
  (∃ m', DryNulls zeroed_cell stale_list 5 1%N mem_empty = Done 2%N m' ∧
         m' !! 2%N = Some (OList (mkList 99%N 7)) ∧
         ¬ invariant m' 2%N) ∧
  (∃ m', DryNulls zeroed_cell zeroed_list 5 1%N mem_with_nulls = Done 7%N m' ∧
         is_list m' 7%N [(8%N, 11%N); (9%N, 12%N); (10%N, 13%N)] ∧
         m' !! 1%N = None).
Proof.
  split; [by apply invariant_check_spec|].
  split; [by vm_compute|]. split.
  - eexists. split; [vm_compute; reflexivity|]. split; [done|].
    rewrite invariant_check_spec. by vm_compute.
  - eexists. split; [vm_compute; reflexivity|]. split; [|done].
    split; [done|]. exists 8%N. split; [done|]. by apply (cells_from_sound 3).
Qed.

(** C6. [PushBack(v)] followed by [RetrieveBack()] on the empty list, for
    every value, allocator and fuel: [RetrieveBack] finds a one-cell list,
    its loop does not run, and [beforeTarget->next = NULL] dereferences
    [NULL]; no cell is returned. *)
Theorem PushBack_RetrieveBack_on_empty_faults :
  invariant mem_empty 1%N ∧
  ∀ (uninit_cell : mem -> Cell_t) (fuel : nat) (v : ptr),
    (_ <- PushBack uninit_cell fuel 1%N v ; RetrieveBack fuel 1%N) mem_empty
    = Fault.
Proof.
  split; [by apply invariant_check_spec|].
  intros uninit_cell fuel v.
  apply PushBack_RetrieveBack_empty_Fault. exact is_list_mem_empty.
Qed.

(** C8, as stated for every [n]. With [2^32 + 1] values pushed onto the
    empty list, every [PushBack] returns, [currentSize] has wrapped to 1,
    and [GetAt(list, 1)] returns [NULL] although index 1 is within the
    sequence pushed: no cell holding the value pushed second is returned. *)
Lemma PushBack_all_GetAt_beyond_uint32 :
  replicate over_uint32 7%N !! 1%nat = Some 7%N ∧
  (∃ m', PushBack_all zeroed_cell over_uint32 1%N (replicate over_uint32 7%N)
           mem_empty = Done tt m' ∧
         GetAt over_uint32 1%N 1 m' = Done NULL m') ∧
  ¬ (∃ m' c, PushBack_all zeroed_cell over_uint32 1%N (replicate over_uint32 7%N)
               mem_empty = Done tt m' ∧
             GetAt over_uint32 1%N 1 m' = Done c m' ∧
             c ≠ NULL ∧
             get_value c m' = Done 7%N m').
Proof.
  assert (Hrun : ∃ m', PushBack_all zeroed_cell over_uint32 1%N
                         (replicate over_uint32 7%N) mem_empty = Done tt m' ∧
                       GetAt over_uint32 1%N 1 m' = Done NULL m').
  { apply (PushBack_all_GetAt_wrapped zeroed_cell over_uint32 mem_empty 1%N).
    - exact is_list_mem_empty.
    - rewrite length_replicate. lia.
    - rewrite length_replicate. unfold over_uint32.
      rewrite Z2Nat.id by lia. reflexivity. }
  split; [|split; [exact Hrun|]].
  - apply lookup_replicate_2. unfold over_uint32. lia.
  - destruct Hrun as (m0 & Hpush & Hget).
    intros (m' & c & Hpush' & Hget' & Hc & _).
    rewrite Hpush in Hpush'. injection Hpush' as <-.
    rewrite Hget in Hget'. injection Hget' as <-. exact (Hc eq_refl).
Qed.

(** * Witnesses *)

Lemma InsertAt_zero_on_empty_witness :
  is_list mem_empty 1%N [] ∧
  ∃ m' c,
    InsertAt stale_cell 0 1%N 0 55%N mem_empty = Done tt m' ∧
    m' !! 1%N = Some (OList (mkList c 1)) ∧
    c ≠ NULL ∧
    m' !! c = Some (OCell (mkCell 55%N NULL)) ∧
    is_list m' 1%N [(c, 55%N)].
Proof.
  assert (H : is_list mem_empty 1%N []).
  { split; [discriminate|]. exists NULL. split; reflexivity. }
  split; [exact H|].
  exact (InsertAt_zero_on_empty stale_cell 0 mem_empty 1%N 55%N H).
Defined.

Lemma PushBack_all_GetAt_witness :
  ∃ m' c, PushBack_all stale_cell 3 1%N [10%N; 20%N; 30%N] mem_empty = Done tt m' ∧
          GetAt 3 1%N (Z.of_nat 1) m' = Done c m' ∧
          c ≠ NULL ∧
          get_value c m' = Done 20%N m'.
Proof.
  apply (PushBack_all_GetAt stale_cell 3 mem_empty 1%N [10%N; 20%N; 30%N] 1 20%N).
  - split; [discriminate|]. exists NULL. split; reflexivity.
  - reflexivity.
  - simpl. lia.
  - reflexivity.
Defined.

Lemma RemoveAt_empty_unchanged_witness :
  RemoveAt 0 1%N LIST_TAIL mem_empty = Done tt mem_empty.
Proof.
  apply (RemoveAt_empty_unchanged 0 mem_empty 1%N LIST_TAIL).
  split; [discriminate|]. exists NULL. split; reflexivity.
Defined.

Lemma GetAt_NULL_iff_out_of_range_witness :
  ([(4%N, 5%N); (2%N, 10%N); (3%N, 20%N)] = [] ->
   GetAt 3 1%N 0 mem_5_10_20 = Done NULL mem_5_10_20) ∧
  ∃ r, GetAt 3 1%N 3 mem_5_10_20 = Done r mem_5_10_20 ∧
       (r = NULL ↔ ¬ (0 ≤ resolved 3 3 ≤ Z.of_nat 3 - 1)).
Proof.
  apply (GetAt_NULL_iff_out_of_range 3 mem_5_10_20 1%N
           [(4%N, 5%N); (2%N, 10%N); (3%N, 20%N)] 3).
  - split; [discriminate|]. exists 4%N. split; [reflexivity|].
    unfold chain. simpl.
    repeat (split; [reflexivity|]; split; [discriminate|];
            eexists; split; [reflexivity|]).
    reflexivity.
  - reflexivity.
  - simpl. lia.
Defined.

(** * Further properties of the operations *)

Section Coverage.

Variable uninit_cell : mem -> Cell_t.
Variable uninit_list : mem -> LinkedList_t.

(** ** [Empty] *)

Lemma Empty_well_formed (m : mem) list cs :
  is_list m list cs ->
  Empty list m = Done (bool_decide (cs = [])) m.
Proof.
  intros (Hnn & h & Hlk & Hch). rewrite (Empty_Done m list _ Hnn Hlk).
  cbn [head currentSize]. f_equal.
  pose proof (chain_nil_iff m h cs Hch) as Hiff.
  destruct cs as [|c cs].
  - rewrite !bool_decide_eq_true_2; [done | done | done | by apply Hiff].
  - rewrite (bool_decide_eq_false_2 (h = NULL)); [done|].
    intros Hh. apply Hiff in Hh. done.
Qed.

(** X1. On a well-formed list [Empty] answers whether the list has no
    cell, and writes nothing. *)
Theorem Empty_iff_no_cell (m : mem) list cs :
  is_list m list cs ->
  Empty list m = Done (bool_decide (cs = [])) m.
Proof. exact (Empty_well_formed m list cs). Qed.

(** ** [RetrieveFront] *)

Lemma RetrieveFront_frame (m : mem) list a v cs :
  is_list m list ((a, v) :: cs) ->
  Z.of_nat (length ((a, v) :: cs)) < 2 ^ 32 ->
  ∃ m', RetrieveFront list m = Done a m' ∧
        is_list m' list cs ∧
        m' !! a = Some (OCell (mkCell v NULL)) ∧
        (∀ b, b ≠ list -> b ≠ a -> m' !! b = m !! b).
Proof.
  intros (Hnn & h & Hlk & Hch) Hsz. unfold RetrieveFront.
  pose proof (chain_NoDup _ _ _ Hch) as Hnd. simpl in Hnd.
  apply NoDup_cons in Hnd as (Hacs & _).
  destruct Hch as (Hh & Hhnn & nx & Ha & Hrest). cbn [fst snd] in *. subst h.
  assert (Hal : a ≠ list) by (intros E; rewrite E in Ha; congruence).
  erewrite bind_Done by by apply Empty_Done.
  cbn [head currentSize]. rewrite (bool_decide_eq_false_2 (a = NULL)) by done.
  cbn [andb].
  erewrite bind_Done by by apply get_head_Done.
  erewrite bind_Done by by apply get_head_Done.
  cbn [head].
  erewrite bind_Done by by eapply get_next_Done.
  cbn [next].
  erewrite bind_Done by by apply set_head_Done.
  cbn [currentSize].
  erewrite bind_Done by (eapply set_next_Done; [done | by rewrite lookup_insert_ne]).
  cbn [value].
  erewrite bind_Done
    by (apply get_size_Done; [done | rewrite lookup_insert_ne by done; apply lookup_insert_eq]).
  cbn [currentSize].
  erewrite bind_Done
    by (apply set_size_Done; [done | rewrite lookup_insert_ne by done; apply lookup_insert_eq]).
  cbn [head].
  eexists. split; [reflexivity|]. split; [|split].
  - split; [done|]. exists nx. split.
    + rewrite lookup_insert_eq. do 3 f_equal.
      unfold wrap32. cbn [length] in *. rewrite Z.mod_small by lia. lia.
    + eapply lseg_insert_list;
        [|rewrite lookup_insert_ne by done; apply lookup_insert_eq].
      apply lseg_insert_ne; [|exact Hacs].
      by eapply lseg_insert_list.
  - rewrite lookup_insert_ne by done. apply lookup_insert_eq.
  - intros b Hbl Hba. by rewrite !lookup_insert_ne.
Qed.

(** X2. [RetrieveFront] on a non-empty well-formed list returns the head
    cell, now with an absent [next] and still holding its value; the list
    keeps the other cells in order with the size one less, and no object
    other than the header and that cell is written. *)
Theorem RetrieveFront_unlinks_head (m : mem) list a v cs :
  is_list m list ((a, v) :: cs) ->
  Z.of_nat (length ((a, v) :: cs)) < 2 ^ 32 ->
  ∃ m', RetrieveFront list m = Done a m' ∧
        is_list m' list cs ∧
        m' !! a = Some (OCell (mkCell v NULL)) ∧
        (∀ b, b ≠ list -> b ≠ a -> m' !! b = m !! b).
Proof. exact (RetrieveFront_frame m list a v cs). Qed.

(** X3. On an empty list [RetrieveFront] and [RetrieveBack] both return
    [NULL] and write nothing. *)
Theorem Retrieve_on_empty fuel (m : mem) list :
  is_list m list [] ->
  RetrieveFront list m = Done NULL m ∧ RetrieveBack fuel list m = Done NULL m.
Proof.
  intros (Hnn & Hlk)%is_list_nil. unfold RetrieveFront, RetrieveBack.
  by erewrite !bind_Done by by apply Empty_Done.
Qed.

(** X4. [PushFront(v)] followed by [RetrieveFront()] on any well-formed
    list, the empty one included: the cell returned holds [v], and the list
    has the cells and the size it had before. *)
Theorem PushFront_RetrieveFront (m : mem) list cs v :
  is_list m list cs ->
  Z.of_nat (length cs) + 1 < 2 ^ 32 ->
  ∃ m' x, (_ <- PushFront uninit_cell list v ; RetrieveFront list) m = Done x m' ∧
          get_value x m' = Done v m' ∧
          is_list m' list cs.
Proof.
  intros Hl Hsz.
  destruct (PushFront_Done uninit_cell m list cs v Hl Hsz) as (m1 & Hpush & Hl1).
  destruct (RetrieveFront_frame m1 list (fresh_addr m) v cs Hl1)
    as (m' & Hrun & Hl' & Hx & _); [cbn [length]; lia|].
  exists m', (fresh_addr m). split; [|split; [|done]].
  - by erewrite bind_Done by exact Hpush.
  - by erewrite get_value_Done by (done || apply fresh_addr_not_NULL).
Qed.

Lemma RetrieveFront_all_Done (m : mem) list cs :
  is_list m list cs ->
  Z.of_nat (length cs) < 2 ^ 32 ->
  ∃ m', RetrieveFront_all (length cs) list m = Done cs.*1 m' ∧
        is_list m' list [] ∧
        (∀ c, c ∈ cs -> m' !! c.1 = Some (OCell (mkCell c.2 NULL))) ∧
        (∀ b, b ≠ list -> b ∉ cs.*1 -> m' !! b = m !! b).
Proof.
  revert m. induction cs as [|[a v] cs IH]; intros m Hl Hsz.
  - exists m. split; [done|]. split; [done|]. split; [|done].
    intros c Hc. by apply elem_of_nil in Hc.
  - pose proof Hl as (Hnn & h & Hlk & Hch).
    pose proof (chain_NoDup _ _ _ Hch) as Hnd. rewrite fmap_cons in Hnd.
    apply NoDup_cons in Hnd as (Hacs & _). cbn [fst] in Hacs.
    assert (Hal : a ≠ list).
    { intros E. destruct Hch as (Hh & _ & nx & Ha & _). cbn [fst] in Hh.
      subst h. rewrite E in Ha. congruence. }
    destruct (RetrieveFront_frame m list a v cs Hl Hsz) as (m1 & Hrun & Hl1 & Ha1 & Hframe1).
    destruct (IH m1 Hl1) as (m' & Hall & Hl' & Hcells & Hframe);
      [cbn [length] in Hsz; lia|].
    exists m'. split; [|split; [done|]; split].
    + cbn [length RetrieveFront_all]. erewrite bind_Done by exact Hrun.
      by erewrite bind_Done by exact Hall.
    + intros c Hc. apply elem_of_cons in Hc as [->|Hc]; [|by apply Hcells].
      cbn [fst snd]. by rewrite Hframe.
    + intros b Hbl Hb. rewrite fmap_cons in Hb. cbn [fst] in Hb.
      apply not_elem_of_cons in Hb as (Hba & Hb).
      rewrite Hframe by done. by apply Hframe1.
Qed.

(** X5. Calling [RetrieveFront] as many times as a well-formed list has
    cells returns its cells front to back, each unlinked and still holding
    its value, and leaves the list empty. *)
Theorem RetrieveFront_drains_in_order (m : mem) list cs :
  is_list m list cs ->
  Z.of_nat (length cs) < 2 ^ 32 ->
  ∃ m', RetrieveFront_all (length cs) list m = Done cs.*1 m' ∧
        is_list m' list [] ∧
        Empty list m' = Done true m' ∧
        (∀ c, c ∈ cs -> m' !! c.1 = Some (OCell (mkCell c.2 NULL))).
Proof.
  intros Hl Hsz.
  destruct (RetrieveFront_all_Done m list cs Hl Hsz) as (m' & Hrun & Hl' & Hcells & _).
  exists m'. split; [done|]. split; [done|]. split; [|done].
  apply is_list_nil in Hl' as (Hnn & Hlk). by rewrite (Empty_Done m' list _ Hnn Hlk).
Qed.

(** X6. First in, first out: after values are pushed with [PushBack] onto
    an empty list (fewer than 2^32 of them), as many calls of
    [RetrieveFront] return cells holding those values in the order they
    were pushed, and the list is empty again. *)
Theorem PushBack_all_RetrieveFront_all fuel (m : mem) list vs :
  is_list m list [] ->
  Z.of_nat (length vs) < 2 ^ 32 ->
  (length vs ≤ fuel)%nat ->
  ∃ m1 m2 cells,
    PushBack_all uninit_cell fuel list vs m = Done tt m1 ∧
    RetrieveFront_all (length vs) list m1 = Done cells m2 ∧
    length cells = length vs ∧
    (∀ i c v, cells !! i = Some c -> vs !! i = Some v ->
              get_value c m2 = Done v m2) ∧
    is_list m2 list [].
Proof.
  intros Hl Hsz Hfuel.
  destruct (PushBack_all_Done uninit_cell fuel m list [] vs Hl)
    as (m1 & cs & Hpush & Hl1 & Hvs); [simpl; lia | simpl; lia |].
  cbn [app] in Hl1.
  assert (Hlen : length cs = length vs) by (by rewrite <- Hvs, length_fmap).
  destruct (RetrieveFront_all_Done m1 list cs Hl1) as (m2 & Hrun & Hl2 & Hcells & _);
    [lia|].
  exists m1, m2, cs.*1. split; [done|]. split; [by rewrite <- Hlen|].
  split; [by rewrite length_fmap|]. split; [|done].
  intros i c v Hc Hv.
  rewrite list_lookup_fmap in Hc. rewrite <- Hvs, list_lookup_fmap in Hv.
  destruct (cs !! i) as [[a w]|] eqn:Hi; [|done].
  cbn in Hc, Hv. injection Hc as <-. injection Hv as <-.
  assert (Hin : (a, w) ∈ cs) by (apply list_elem_of_lookup; eauto).
  pose proof (Hcells _ Hin) as Ha. cbn [fst snd] in Ha.
  destruct Hl1 as (_ & h & _ & Hch).
  destruct (lseg_lookup m1 h NULL cs a Hch) as (Hann & _).
  { apply list_elem_of_fmap. by exists (a, w). }
  by erewrite get_value_Done by done.
Qed.

(** ** [Free] *)

Lemma Free_loop_full fuel (m : mem) p cs t vt k :
  chain m p (cs ++ [(t, vt)]) -> (length cs ≤ fuel)%nat ->
  ∃ m', Free_loop fuel (mkCounter p k) m = Done tt m' ∧
        (∀ a, a ∉ cs.*1 -> m' !! a = m !! a) ∧
        (∀ a, a ∈ cs.*1 -> m' !! a = None).
Proof.
  revert fuel m p. induction cs as [|[a v] cs IH]; intros fuel m p Hch Hfuel;
    rewrite Free_loop_eq; cbn [pivot currentPosition].
  - destruct Hch as (Hp & Hnn & nx & Hlk & Hnx). cbn [fst snd] in *. subst p.
    simpl in Hnx. subst nx.
    erewrite bind_Done by by eapply get_next_Done.
    cbn [next]. rewrite decide_True by done. exists m.
    split; [done|]. split; [done|]. intros a Ha. by apply elem_of_nil in Ha.
  - pose proof (chain_NoDup _ _ _ Hch) as Hnd. rewrite <- app_comm_cons in Hnd.
    rewrite fmap_cons in Hnd. cbn [fst] in Hnd.
    apply NoDup_cons in Hnd as (Hnotin & _).
    destruct Hch as (Hp & Hnn & nx & Hlk & Hrest). cbn [fst snd] in *. subst p.
    pose proof (lseg_snoc_not_NULL _ _ _ _ _ Hrest) as Hnx.
    erewrite bind_Done by by eapply get_next_Done.
    cbn [next]. rewrite decide_False by done.
    destruct fuel as [|fuel]; [simpl in Hfuel; lia|].
    cbv zeta.
    erewrite bind_Done by by eapply get_next_Done.
    cbn [next].
    assert (Hfree : free a m = Done tt (delete a m)).
    { unfold free. rewrite decide_False by done. by rewrite Hlk. }
    erewrite bind_Done by exact Hfree.
    destruct (IH fuel (delete a m) nx) as (m' & Hrun & Hframe & Hgone).
    { apply lseg_delete_ne; [done | exact Hnotin]. }
    { simpl in Hfuel. lia. }
    assert (Hacs : a ∉ cs.*1).
    { intros Hin. apply Hnotin. rewrite fmap_app. apply elem_of_app. by left. }
    exists m'. split; [done|]. split.
    + intros a' Ha'. rewrite fmap_cons in Ha'. cbn [fst] in Ha'.
      apply not_elem_of_cons in Ha' as (Hne & Ha').
      rewrite (Hframe a' Ha'). by apply lookup_delete_ne.
    + intros a' Ha'. rewrite fmap_cons in Ha'. cbn [fst] in Ha'.
      apply elem_of_cons in Ha' as [->|Ha']; [|by apply Hgone].
      rewrite (Hframe a Hacs). apply lookup_delete_eq.
Qed.

(** X7. [Free] on a well-formed list returns, releases the header, and
    writes no object outside the list. *)
Theorem Free_releases_header fuel (m : mem) list cs :
  is_list m list cs -> (length cs ≤ S fuel)%nat ->
  ∃ m', Free fuel list m = Done tt m' ∧
        m' !! list = None ∧
        (∀ a, a ≠ list -> a ∉ cs.*1 -> m' !! a = m !! a).
Proof. exact (Free_Done fuel m list cs). Qed.

(** X8. [Free] on a non-empty well-formed list releases the header and
    every cell but the last: the loop stops on the cell whose [next] is
    absent and nothing releases it afterwards, so that cell stays live with
    its value. *)
Theorem Free_leaves_last_cell fuel (m : mem) list cs t vt :
  is_list m list (cs ++ [(t, vt)]) ->
  (length cs ≤ fuel)%nat ->
  ∃ m', Free fuel list m = Done tt m' ∧
        m' !! list = None ∧
        (∀ a, a ∈ cs.*1 -> m' !! a = None) ∧
        m' !! t = Some (OCell (mkCell vt NULL)).
Proof.
  intros (Hnn & h & Hlk & Hch) Hfuel. unfold Free.
  assert (Hh : h ≠ NULL).
  { intros ->. apply chain_NULL in Hch. by destruct cs. }
  pose proof (chain_NoDup _ _ _ Hch) as Hnd.
  rewrite fmap_app in Hnd. apply NoDup_app in Hnd as (_ & Hdisj & _).
  assert (Htcs : t ∉ cs.*1).
  { intros Hin. apply (Hdisj _ Hin). apply list_elem_of_singleton. done. }
  pose proof Hch as Hch'. unfold chain in Hch'.
  apply lseg_app in Hch' as (r & Hseg & Hlast).
  destruct Hlast as (Hr & Htnn & nx & Ht & Hnx). cbn [fst snd] in *. subst r.
  simpl in Hnx. subst nx.
  assert (Hlcs : list ∉ cs.*1) by (by apply (lseg_not_list _ _ _ _ _ _ Hseg Hlk)).
  assert (Htl : t ≠ list) by (intros E; rewrite E in Ht; congruence).
  erewrite bind_Done by by apply get_head_Done.
  cbn [head]. rewrite decide_False by done.
  erewrite bind_Done by by apply get_head_Done.
  cbn [head].
  destruct (Free_loop_full fuel m h cs t vt 0 Hch Hfuel) as (m1 & Hrun & Hframe & Hgone).
  erewrite bind_Done by exact Hrun.
  erewrite bind_Done by (eapply set_size_Done; [done | by rewrite Hframe]).
  unfold free. rewrite decide_False by done. rewrite lookup_insert_eq.
  eexists. split; [reflexivity|]. split; [apply lookup_delete_eq|]. split.
  - intros a Ha.
    assert (a ≠ list) by (intros ->; done).
    rewrite lookup_delete_ne by done. rewrite lookup_insert_ne by done.
    by apply Hgone.
  - rewrite lookup_delete_ne by done. rewrite lookup_insert_ne by done.
    by rewrite Hframe.
Qed.

(** ** [Pprint] *)

Lemma Pprint_loop_eq fuel counter :
  Pprint_loop fuel counter =
  if decide (pivot counter = NULL) then ret []
  else match fuel with
       | O => timeout
       | S fuel' =>
           v <- get_value (pivot counter) ;
           nx <- get_next (pivot counter) ;
           let call :=
             mkPrintf "{ value = %p, index = %ld }%s"
               [APtr v; AInt (currentPosition counter);
                AStr (if decide (nx = NULL) then String.append "]" newline
                      else ", ")] in
           nx' <- get_next (pivot counter) ;
           rest <- Pprint_loop fuel'
                     (mkCounter nx' (wrap64 (currentPosition counter + 1))) ;
           ret (call :: rest)
       end.
Proof. by destruct fuel. Qed.

Lemma Pprint_loop_Done fuel (m : mem) p cs k :
  chain m p cs -> (length cs ≤ fuel)%nat ->
  0 ≤ k -> k + Z.of_nat (length cs) < 2 ^ 64 ->
  Pprint_loop fuel (mkCounter p k) m = Done (printed_cells k cs) m.
Proof.
  unfold chain. revert fuel p k.
  induction cs as [|[a v] cs IH]; intros fuel p k Hch Hfuel Hk Hbound;
    rewrite Pprint_loop_eq; cbn [pivot currentPosition].
  - simpl in Hch. subst p. by rewrite decide_True by done.
  - destruct Hch as (Hp & Hnn & nx & Hlk & Hrest). cbn [fst snd] in *. subst p.
    rewrite decide_False by done.
    cbn [length] in *. destruct fuel as [|fuel]; [lia|].
    erewrite bind_Done by by eapply get_value_Done.
    erewrite bind_Done by by eapply get_next_Done.
    cbv zeta.
    erewrite bind_Done by by eapply get_next_Done.
    cbn [value next]. unfold wrap64. rewrite Z.mod_small by lia.
    erewrite bind_Done by (apply IH; [done | lia | lia | lia]).
    cbn [printed_cells snd]. unfold ret. do 4 f_equal.
    pose proof (chain_nil_iff m nx cs Hrest) as Hiff.
    destruct cs as [|c cs].
    + rewrite decide_True; [done | by apply Hiff].
    + rewrite decide_False; [done|]. intros E. apply Hiff in E. done.
Qed.

(** X9. [Pprint] on a well-formed list writes nothing to memory and makes,
    in this order: the call printing [currentSize], the call printing the
    opening bracket, and one call per cell front to back, with the cell's
    value, its index counted from 0, and the closing bracket and newline
    for the last cell or a comma for any other.  (For an empty list no call
    prints a closing bracket.) *)
Theorem Pprint_prints_cells_in_order fuel (m : mem) list cs :
  is_list m list cs ->
  Z.of_nat (length cs) < 2 ^ 32 ->
  (length cs ≤ fuel)%nat ->
  Pprint fuel list m =
  Done (mkPrintf (String.append "List size: %d" newline) [AInt (Z.of_nat (length cs))]
        :: mkPrintf "[" []
        :: printed_cells 0 cs) m.
Proof.
  intros (Hnn & h & Hlk & Hch) Hsz Hfuel. unfold Pprint.
  erewrite bind_Done by by apply get_head_Done.
  erewrite bind_Done by by apply get_size_Done.
  cbv zeta. cbn [head currentSize].
  by erewrite bind_Done by (apply Pprint_loop_Done; [done | lia | lia | lia]).
Qed.

(** ** Pushing at both ends *)

Lemma Push_all_Done fuel (m : mem) list cs ops :
  is_list m list cs ->
  Z.of_nat (length cs + length ops) < 2 ^ 32 ->
  (length cs + length ops ≤ S fuel)%nat ->
  ∃ m' cs', Push_all uninit_cell fuel list ops m = Done tt m' ∧
            is_list m' list cs' ∧
            cs'.*2 = pushed cs.*2 ops ∧
            length cs' = (length cs + length ops)%nat.
Proof.
  revert m cs. induction ops as [|[v|v] ops IH]; intros m cs Hl Hsz Hfuel.
  - exists m, cs. simpl. split; [done|]. split; [done|]. split; [done | lia].
  - cbn [length] in *.
    destruct (PushFront_Done uninit_cell m list cs v Hl) as (m1 & Hpush & Hl1); [lia|].
    destruct (IH m1 _ Hl1) as (m' & cs' & Hall & Hl' & Hvals & Hlen);
      [cbn [length]; lia | cbn [length]; lia |].
    exists m', cs'. split; [|split; [done|]; split].
    + cbn [Push_all]. by erewrite bind_Done by exact Hpush.
    + by rewrite Hvals.
    + rewrite Hlen. cbn [length]. lia.
  - cbn [length] in *.
    destruct (PushBack_Done uninit_cell fuel m list cs v Hl) as (m1 & Hpush & Hl1 & _);
      [lia | lia |].
    destruct (IH m1 _ Hl1) as (m' & cs' & Hall & Hl' & Hvals & Hlen);
      [rewrite length_app; cbn [length]; lia | rewrite length_app; cbn [length]; lia |].
    exists m', cs'. split; [|split; [done|]; split].
    + cbn [Push_all]. by erewrite bind_Done by exact Hpush.
    + rewrite Hvals. by rewrite fmap_app.
    + rewrite Hlen, length_app. cbn [length]. lia.
Qed.

(** X10. After any sequence of [PushFront] and [PushBack] calls on an empty
    list (fewer than 2^32 calls), the list is well formed, its size is the
    number of calls, it holds the values in the order that pushing at the
    front and at the back gives, and [Empty] answers true exactly when no
    call was made. *)
Theorem Push_all_size_and_order fuel (m : mem) list ops :
  is_list m list [] ->
  Z.of_nat (length ops) < 2 ^ 32 ->
  (length ops ≤ S fuel)%nat ->
  ∃ m' cs, Push_all uninit_cell fuel list ops m = Done tt m' ∧
           is_list m' list cs ∧
           length cs = length ops ∧
           cs.*2 = pushed [] ops ∧
           Empty list m' = Done (bool_decide (ops = [])) m'.
Proof.
  intros Hl Hsz Hfuel.
  destruct (Push_all_Done fuel m list [] ops Hl) as (m' & cs & Hrun & Hl' & Hvals & Hlen);
    [simpl; lia | simpl; lia |].
  exists m', cs. split; [done|]. split; [done|]. split; [done|]. split; [done|].
  rewrite (Empty_well_formed m' list cs Hl'). f_equal.
  destruct cs, ops; simpl in Hlen; try lia; done.
Qed.

(** ** [PushFront] and [PushBack] on any well-formed list *)

(** X11. [PushFront] on a well-formed list with room in [currentSize]
    returns and leaves a well-formed list whose first cell is the newly
    allocated one holding the value, followed by the cells that were
    there. *)
Theorem PushFront_prepends (m : mem) list cs v :
  is_list m list cs ->
  Z.of_nat (length cs) + 1 < 2 ^ 32 ->
  ∃ m', PushFront uninit_cell list v m = Done tt m' ∧
        is_list m' list ((fresh_addr m, v) :: cs).
Proof. exact (PushFront_Done uninit_cell m list cs v). Qed.

(** X12. [PushBack] on a well-formed list with room in [currentSize]
    returns and leaves a well-formed list whose cells are those that were
    there followed by the newly allocated one holding the value; apart from
    the header, the former last cell and the new cell, no object is
    written. *)
Theorem PushBack_appends fuel (m : mem) list cs v :
  is_list m list cs ->
  Z.of_nat (length cs) + 1 < 2 ^ 32 ->
  (length cs ≤ S fuel)%nat ->
  ∃ m', PushBack uninit_cell fuel list v m = Done tt m' ∧
        is_list m' list (cs ++ [(fresh_addr m, v)]) ∧
        (∀ a, a ≠ list -> a ≠ fresh_addr m -> a ≠ last_addr cs ->
              m' !! a = m !! a).
Proof. exact (PushBack_Done uninit_cell fuel m list cs v). Qed.

(** ** [GetAt] *)

(** X13. [GetAt] at an index of a well-formed list returns the address of
    the cell at that index, which holds the value stored there, and writes
    nothing. *)
Theorem GetAt_returns_cell_at_index fuel (m : mem) list cs i a v :
  is_list m list cs ->
  Z.of_nat (length cs) < 2 ^ 32 ->
  (length cs ≤ fuel)%nat ->
  cs !! i = Some (a, v) ->
  GetAt fuel list (Z.of_nat i) m = Done a m ∧
  a ≠ NULL ∧
  get_value a m = Done v m.
Proof.
  intros Hl Hsz Hfuel Hi.
  pose proof (lookup_lt_Some _ _ _ Hi) as Hlt.
  assert (Hres : resolved (length cs) (Z.of_nat i) = Z.of_nat i).
  { unfold resolved. rewrite decide_False; [done|].
    unfold LIST_TAIL, INT64_MAX. lia. }
  rewrite (GetAt_Done fuel m list cs (Z.of_nat i) Hl Hsz Hfuel).
  rewrite Hres, Nat2Z.id. rewrite decide_True by lia.
  unfold addr_at. rewrite Hi. cbn [fst].
  destruct Hl as (_ & h & _ & Hch).
  destruct (chain_split_at m h cs i (a, v) Hch Hi) as (_ & Hsuf).
  rewrite (drop_S _ _ _ Hi) in Hsuf.
  destruct Hsuf as (_ & Hann & nx & Ha & _). cbn [fst snd] in *.
  split; [done|]. split; [done|]. by erewrite get_value_Done by done.
Qed.

(** X14. On a non-empty well-formed list [GetAt] with [LIST_TAIL] returns
    the last cell, the same cell as [GetAt] with position [size - 1]. *)
Theorem GetAt_TAIL_is_last fuel (m : mem) list cs t vt :
  is_list m list (cs ++ [(t, vt)]) ->
  Z.of_nat (length (cs ++ [(t, vt)])) < 2 ^ 32 ->
  (length (cs ++ [(t, vt)]) ≤ fuel)%nat ->
  GetAt fuel list LIST_TAIL m = Done t m ∧
  GetAt fuel list (Z.of_nat (length (cs ++ [(t, vt)])) - 1) m = Done t m.
Proof.
  intros Hl Hsz Hfuel.
  rewrite !(GetAt_Done fuel m list _ _ Hl Hsz Hfuel).
  rewrite length_app in *. cbn [length] in *.
  assert (Hlast : addr_at (cs ++ [(t, vt)]) (length cs) = t).
  { unfold addr_at. rewrite lookup_app_r by lia.
    by replace (length cs - length cs)%nat with 0%nat by lia. }
  assert (H1 : resolved (length cs + 1) LIST_TAIL = Z.of_nat (length cs)).
  { unfold resolved. rewrite decide_True by done.
    unfold wrap32. rewrite Z.mod_small by lia. lia. }
  assert (H2 : resolved (length cs + 1) (Z.of_nat (length cs + 1) - 1)
               = Z.of_nat (length cs)).
  { unfold resolved. rewrite decide_False; [lia|].
    unfold LIST_TAIL, INT64_MAX. lia. }
  rewrite H1, H2, Nat2Z.id, Hlast. by rewrite decide_True by lia.
Qed.

(** ** [InsertAt] *)

(** X15. [InsertAt(list, p, v)] with [1 <= p <= size - 1] on a well-formed
    list returns and leaves a well-formed list, one cell longer, in which
    the new cell holding [v] sits at index [p], between the cells that were
    at [p - 1] and [p]. *)
Theorem InsertAt_links_inside fuel (m : mem) list pre b vb t vt post v :
  is_list m list (pre ++ (b, vb) :: (t, vt) :: post) ->
  Z.of_nat (length (pre ++ (b, vb) :: (t, vt) :: post)) + 1 < 2 ^ 32 ->
  (length pre + 1 ≤ fuel)%nat ->
  ∃ m', InsertAt uninit_cell fuel list (Z.of_nat (length pre + 1)) v m = Done tt m' ∧
        is_list m' list (pre ++ (b, vb) :: (fresh_addr m, v) :: (t, vt) :: post).
Proof. exact (InsertAt_inner_Done uninit_cell fuel m list pre b vb t vt post v). Qed.

(** X16. [InsertAt] with [LIST_TAIL] on a well-formed list of two cells or
    more does not append: the sentinel becomes position [size - 1], and the
    new cell is linked before the last cell. *)
Theorem InsertAt_TAIL_goes_before_last fuel (m : mem) list pre b vb t vt v :
  is_list m list (pre ++ [(b, vb); (t, vt)]) ->
  Z.of_nat (length (pre ++ [(b, vb); (t, vt)])) + 1 < 2 ^ 32 ->
  (length pre + 1 ≤ fuel)%nat ->
  ∃ m', InsertAt uninit_cell fuel list LIST_TAIL v m = Done tt m' ∧
        is_list m' list (pre ++ [(b, vb); (fresh_addr m, v); (t, vt)]).
Proof.
  intros Hl Hsz Hfuel.
  rewrite (InsertAt_resolved uninit_cell fuel m list _ LIST_TAIL v Hl).
  assert (Hres : resolved (length (pre ++ [(b, vb); (t, vt)])) LIST_TAIL
                 = Z.of_nat (length pre + 1)).
  { unfold resolved. rewrite decide_True by done.
    rewrite length_app in *. cbn [length] in *.
    unfold wrap32. rewrite Z.mod_small by lia. lia. }
  rewrite Hres.
  exact (InsertAt_inner_Done uninit_cell fuel m list pre b vb t vt [] v Hl Hsz Hfuel).
Qed.

(** X17. [InsertAt] at a position that is no insertion point (negative, or
    at least [size] on a non-empty list, or other than 0 on an empty list)
    returns with the list exactly as it was; the cell it allocated
    beforehand stays live, holding the value, linked from nowhere and never
    released. *)
Theorem InsertAt_rejected_leaks_cell fuel (m : mem) list cs position v :
  is_list m list cs ->
  Z.of_nat (length cs) < 2 ^ 32 ->
  position ≠ LIST_TAIL ->
  position < 0 ∨ Z.max 1 (Z.of_nat (length cs)) ≤ position ->
  InsertAt uninit_cell fuel list position v m =
  Done tt (<[fresh_addr m := OCell (mkCell v NULL)]> m) ∧
  is_list (<[fresh_addr m := OCell (mkCell v NULL)]> m) list cs.
Proof.
  intros Hl Hsz Hnt Hpos.
  pose proof (is_list_insert_fresh m list cs (fresh_addr m)
                (OCell (mkCell v NULL)) Hl (fresh_addr_None m)) as Hl1.
  split; [|done].
  pose proof Hl1 as (Hnn & h & Hlk1 & Hch1). unfold InsertAt.
  assert (H0 : resolve_tail list position m = Done position m).
  { unfold resolve_tail. by rewrite decide_False by done. }
  erewrite bind_Done by exact H0.
  rewrite new_cell_Done.
  erewrite bind_Done by by apply out_of_bounds_Done.
  cbn [currentSize].
  destruct (bool_decide (position < 0)
            || bool_decide (position > wrap32 (Z.of_nat (length cs) - 1))) eqn:Hoob;
    [done|].
  apply orb_false_elim in Hoob as (Hlo & Hhi).
  apply bool_decide_eq_false_1 in Hlo. apply bool_decide_eq_false_1 in Hhi.
  destruct cs as [|c cs].
  - unfold chain in Hch1. simpl in Hch1. subst h.
    erewrite bind_Done by by apply Empty_Done.
    cbn [head currentSize length]. rewrite !bool_decide_eq_true_2 by done.
    cbn [andb]. cbn [length] in Hpos.
    by rewrite (bool_decide_eq_true_2 (position ≠ 0)) by lia.
  - exfalso. rewrite wrap32_pred_length in Hhi by done. cbn [length] in Hpos. lia.
Qed.

(** X18. [InsertAt] keeps the invariant at every position, [LIST_TAIL]
    included, on every well-formed list with room in [currentSize]. *)
Theorem InsertAt_keeps_invariant fuel (m : mem) list cs position v :
  is_list m list cs ->
  Z.of_nat (length cs) + 1 < 2 ^ 32 ->
  (length cs ≤ fuel)%nat ->
  ∃ m', InsertAt uninit_cell fuel list position v m = Done tt m' ∧
        invariant m' list.
Proof. exact (InsertAt_invariant uninit_cell fuel m list cs position v). Qed.

(** ** [RemoveAt] *)

Lemma RemoveAt_empty_like fuel (m : mem) list position :
  is_list m list [] -> RemoveAt fuel list position m = Done tt m.
Proof.
  intros (Hnn & Hlk)%is_list_nil. unfold RemoveAt.
  erewrite bind_Done by by apply resolve_tail_Done.
  by erewrite bind_Done by by apply Empty_Done.
Qed.

(** X19. [RemoveAt] at a position outside [0, size - 1] (other than
    [LIST_TAIL]) of a well-formed list returns without writing anything. *)
Theorem RemoveAt_out_of_range_unchanged fuel (m : mem) list cs position :
  is_list m list cs ->
  Z.of_nat (length cs) < 2 ^ 32 ->
  position ≠ LIST_TAIL ->
  position < 0 ∨ Z.of_nat (length cs) ≤ position ->
  RemoveAt fuel list position m = Done tt m.
Proof.
  intros Hl Hsz Hnt Hpos. destruct cs as [|c cs].
  - by apply RemoveAt_empty_like.
  - destruct Hl as (Hnn & h & Hlk & Hch). unfold RemoveAt.
    pose proof Hch as (_ & Hhnn & _).
    assert (H0 : resolve_tail list position m = Done position m).
    { unfold resolve_tail. by rewrite decide_False by done. }
    erewrite bind_Done by exact H0.
    erewrite bind_Done by by apply Empty_Done.
    cbn [head currentSize]. rewrite (bool_decide_eq_false_2 (h = NULL)) by done.
    cbn [andb].
    erewrite bind_Done by by apply out_of_bounds_Done.
    cbn [currentSize]. rewrite wrap32_pred_length by done.
    cbn [length] in Hpos. destruct Hpos.
    + by rewrite (bool_decide_eq_true_2 (position < 0)) by done.
    + rewrite (bool_decide_eq_true_2 (position > _)) by lia.
      by rewrite orb_true_r.
Qed.

(** X20. [RemoveAt] at a position [p >= 1] of a well-formed list unlinks
    the cell at [p] by linking its predecessor to its successor and
    releases it; the other cells stay in order, and [currentSize] is left
    at its old value. *)
Theorem RemoveAt_unlinks_without_resizing fuel (m : mem) list pre b vb t vt post :
  is_list m list (pre ++ (b, vb) :: (t, vt) :: post) ->
  Z.of_nat (length (pre ++ (b, vb) :: (t, vt) :: post)) < 2 ^ 32 ->
  (length pre + 1 ≤ fuel)%nat ->
  ∃ m' h,
    RemoveAt fuel list (Z.of_nat (length pre + 1)) m = Done tt m' ∧
    m' !! list = Some (OList (mkList h
                   (Z.of_nat (length (pre ++ (b, vb) :: (t, vt) :: post))))) ∧
    chain m' h (pre ++ (b, vb) :: post) ∧
    m' !! t = None.
Proof. exact (RemoveAt_inner_Done fuel m list pre b vb t vt post). Qed.

(** ** [RetrieveBack] *)

(** X21. [RetrieveBack] on a well-formed list of two cells or more returns
    the last cell, with an absent [next] and still holding its value, and
    leaves a well-formed list of the other cells. *)
Theorem RetrieveBack_unlinks_last fuel (m : mem) list pre b vb t vt :
  is_list m list (pre ++ [(b, vb); (t, vt)]) ->
  Z.of_nat (length (pre ++ [(b, vb); (t, vt)])) < 2 ^ 32 ->
  (length pre + 1 ≤ fuel)%nat ->
  ∃ m', RetrieveBack fuel list m = Done t m' ∧
        is_list m' list (pre ++ [(b, vb)]) ∧
        t ≠ NULL ∧
        m' !! t = Some (OCell (mkCell vt NULL)).
Proof. exact (RetrieveBack_Done fuel m list pre b vb t vt). Qed.

(** X22. [PushBack(v)] followed by [RetrieveBack()] on a non-empty
    well-formed list: the cell returned holds [v], and the list has the
    cells and the size it had before. *)
Theorem PushBack_RetrieveBack_round_trip fuel (m : mem) list c cs v :
  is_list m list (c :: cs) ->
  Z.of_nat (length (c :: cs)) + 1 < 2 ^ 32 ->
  (length (c :: cs) ≤ fuel)%nat ->
  ∃ m' x, (_ <- PushBack uninit_cell fuel list v ; RetrieveBack fuel list) m
          = Done x m' ∧
          get_value x m' = Done v m' ∧
          is_list m' list (c :: cs).
Proof. exact (PushBack_RetrieveBack_nonempty uninit_cell fuel m list c cs v). Qed.

(** ** [Reserve] *)

(** X23. [Reserve(n)] for [1 <= n < 2^64], whatever [malloc] leaves in the
    blocks it returns: the call returns a new header with [currentSize = n]
    cut to 32 bits, and [n] cells are linked from [head]; every cell after
    the head cell holds [NULL], the head cell holds what its block held,
    and the [next] of the last cell is what its block held. *)
Theorem Reserve_links_n_cells fuel positions (m : mem) :
  1 ≤ positions < 2 ^ 64 ->
  (Z.to_nat (positions - 1) ≤ fuel)%nat ->
  let list := fresh_addr m in
  let m1 := <[list := OList (uninit_list m)]> m in
  ∃ m' h q cs,
    Reserve uninit_cell uninit_list fuel positions m = Done list m' ∧
    m' !! list = Some (OList (mkList h (wrap32 positions))) ∧
    lseg m' h q cs ∧
    length cs = Z.to_nat positions ∧
    cs.*2 = value (uninit_cell m1) :: replicate (Z.to_nat (positions - 1)) NULL ∧
    ∃ m0, q = next (uninit_cell m0).
Proof. exact (Reserve_Done uninit_cell uninit_list fuel positions m). Qed.

(** X24. With an allocator whose blocks are zero-filled, [Reserve(n)] for
    [1 <= n < 2^32] returns a well-formed list of [n] cells that all hold
    [NULL]. *)
Theorem Reserve_zero_filled_well_formed fuel positions (m : mem) :
  (∀ m0, uninit_cell m0 = mkCell NULL NULL) ->
  1 ≤ positions < 2 ^ 32 ->
  (Z.to_nat (positions - 1) ≤ fuel)%nat ->
  ∃ m' cs,
    Reserve uninit_cell uninit_list fuel positions m = Done (fresh_addr m) m' ∧
    is_list m' (fresh_addr m) cs ∧
    cs.*2 = replicate (Z.to_nat positions) NULL.
Proof. exact (Reserve_zero_filled uninit_cell uninit_list fuel positions m). Qed.

Lemma bind_OutOfFuel {A B} (c : M A) (k : A -> M B) (m : mem) :
  c m = OutOfFuel -> bind c k m = OutOfFuel.
Proof. unfold bind. intros ->. reflexivity. Qed.

Lemma wrap64_minus_one : wrap64 (0 - 1) = 2 ^ 64 - 1.
Proof. reflexivity. Qed.

Lemma Reserve_loop_zero fuel (m : mem) p c k :
  p ≠ NULL -> m !! p = Some (OCell c) ->
  0 ≤ k -> k + Z.of_nat fuel < 2 ^ 64 - 1 ->
  Reserve_loop uninit_cell fuel 0 (mkCounter p k) m = OutOfFuel.
Proof.
  revert m p c k. induction fuel as [|fuel IH]; intros m p c k Hp Hlk Hk Hbound;
    rewrite Reserve_loop_eq; cbn [pivot currentPosition];
    rewrite wrap64_minus_one; (rewrite decide_False by lia); [done|].
  set (a := fresh_addr m).
  pose proof (fresh_addr_None m) as Hfresh.
  pose proof (fresh_addr_not_NULL m) as Hann. fold a in Hfresh, Hann.
  assert (Hap : a ≠ p) by (intros E; rewrite E in Hfresh; congruence).
  erewrite bind_Done by reflexivity. fold a.
  erewrite bind_Done
    by (eapply set_next_Done; [done | by rewrite lookup_insert_ne]).
  erewrite bind_Done by (eapply get_next_Done; [done | apply lookup_insert_eq]).
  cbn [next].
  erewrite bind_Done
    by (eapply set_value_Done;
        [done | rewrite lookup_insert_ne by done; apply lookup_insert_eq]).
  unfold wrap64. rewrite Z.mod_small by lia.
  eapply IH; [done | apply lookup_insert_eq | lia | lia].
Qed.

(** X25. [Reserve(0)] does not return an empty list: [positions - 1] wraps
    to [2^64 - 1], and the loop, which allocates and links one cell per
    round, is still running after any number of rounds below that. *)
Theorem Reserve_zero_keeps_allocating fuel (m : mem) :
  Z.of_nat fuel < 2 ^ 64 - 1 ->
  Reserve uninit_cell uninit_list fuel 0 m = OutOfFuel.
Proof.
  intros Hfuel. unfold Reserve.
  set (list := fresh_addr m).
  pose proof (fresh_addr_not_NULL m) as Hlnn. fold list in Hlnn.
  erewrite bind_Done by reflexivity. fold list.
  set (m1 := <[list := OList (uninit_list m)]> m).
  erewrite bind_Done by reflexivity.
  set (c := fresh_addr m1).
  pose proof (fresh_addr_None m1) as Hfresh1.
  pose proof (fresh_addr_not_NULL m1) as Hcnn. fold c in Hfresh1, Hcnn.
  assert (Hcl : c ≠ list).
  { intros E. rewrite E in Hfresh1. unfold m1 in Hfresh1.
    by rewrite lookup_insert_eq in Hfresh1. }
  erewrite bind_Done
    by (eapply set_head_Done;
        [done | rewrite lookup_insert_ne by done; apply lookup_insert_eq]).
  erewrite bind_Done by (eapply get_head_Done; [done | apply lookup_insert_eq]).
  cbn [head].
  apply bind_OutOfFuel.
  eapply Reserve_loop_zero; [done | | lia | lia].
  rewrite lookup_insert_ne by done. apply lookup_insert_eq.
Qed.

(** ** [DryNulls] *)

(** X26. [DryNulls] on an empty list returns the header block it
    allocated exactly as [malloc] handed it out: neither [head] nor
    [currentSize] of the new list is ever written. *)
Theorem DryNulls_header_as_allocated fuel (m : mem) list :
  is_list m list [] ->
  ∃ m', DryNulls uninit_cell uninit_list fuel list m = Done (fresh_addr m) m' ∧
        m' !! fresh_addr m = Some (OList (uninit_list m)).
Proof. exact (DryNulls_empty_unwritten_header uninit_cell uninit_list fuel m list). Qed.

(** X27. When the header block [malloc] returns is zero-filled, [DryNulls]
    on a well-formed list returns a well-formed list holding the non-absent
    values of the input in their order, and the input header is
    released. *)
Theorem DryNulls_keeps_non_absent_values fuel (m : mem) list cs :
  is_list m list cs ->
  Z.of_nat (length cs) < 2 ^ 32 ->
  (length cs ≤ fuel)%nat ->
  uninit_list m = mkList NULL 0 ->
  ∃ m' cs',
    DryNulls uninit_cell uninit_list fuel list m = Done (fresh_addr m) m' ∧
    is_list m' (fresh_addr m) cs' ∧
    cs'.*2 = filter (λ v, v ≠ NULL) cs.*2 ∧
    m' !! list = None.
Proof. exact (DryNulls_zeroed_header uninit_cell uninit_list fuel m list cs). Qed.

End Coverage.

(** * Witnesses of the further properties *)

Lemma Empty_iff_no_cell_witness :
  Empty 1%N mem_5_10_20
  = Done (bool_decide ([(4%N, 5%N); (2%N, 10%N); (3%N, 20%N)] = [])) mem_5_10_20.
Proof.
  apply (Empty_iff_no_cell mem_5_10_20 1%N [(4%N, 5%N); (2%N, 10%N); (3%N, 20%N)]).
  concrete_is_list 4%N.
Defined.

Lemma RetrieveFront_unlinks_head_witness :
  ∃ m', RetrieveFront 1%N mem_5_10_20 = Done 4%N m' ∧
        is_list m' 1%N [(2%N, 10%N); (3%N, 20%N)] ∧
        m' !! 4%N = Some (OCell (mkCell 5%N NULL)) ∧
        (∀ b, b ≠ 1%N -> b ≠ 4%N -> m' !! b = mem_5_10_20 !! b).
Proof.
  apply (RetrieveFront_unlinks_head mem_5_10_20 1%N 4%N 5%N [(2%N, 10%N); (3%N, 20%N)]).
  - concrete_is_list 4%N.
  - reflexivity.
Defined.

Lemma Retrieve_on_empty_witness :
  RetrieveFront 1%N mem_empty = Done NULL mem_empty ∧
  RetrieveBack 0 1%N mem_empty = Done NULL mem_empty.
Proof.
  apply (Retrieve_on_empty 0 mem_empty 1%N). concrete_is_list NULL.
Defined.

Lemma PushFront_RetrieveFront_witness :
  ∃ m' x, (_ <- PushFront stale_cell 1%N 55%N ; RetrieveFront 1%N) mem_5_10_20
          = Done x m' ∧
          get_value x m' = Done 55%N m' ∧
          is_list m' 1%N [(4%N, 5%N); (2%N, 10%N); (3%N, 20%N)].
Proof.
  apply (PushFront_RetrieveFront stale_cell mem_5_10_20 1%N
           [(4%N, 5%N); (2%N, 10%N); (3%N, 20%N)] 55%N).
  - concrete_is_list 4%N.
  - reflexivity.
Defined.

Lemma RetrieveFront_drains_in_order_witness :
  ∃ m', RetrieveFront_all (length [(4%N, 5%N); (2%N, 10%N); (3%N, 20%N)]) 1%N mem_5_10_20
        = Done [(4%N, 5%N); (2%N, 10%N); (3%N, 20%N)].*1 m' ∧
        is_list m' 1%N [] ∧
        Empty 1%N m' = Done true m' ∧
        (∀ c, c ∈ [(4%N, 5%N); (2%N, 10%N); (3%N, 20%N)] ->
              m' !! c.1 = Some (OCell (mkCell c.2 NULL))).
Proof.
  apply (RetrieveFront_drains_in_order mem_5_10_20 1%N
           [(4%N, 5%N); (2%N, 10%N); (3%N, 20%N)]).
  - concrete_is_list 4%N.
  - reflexivity.
Defined.

Lemma PushBack_all_RetrieveFront_all_witness :
  ∃ m1 m2 cells,
    PushBack_all stale_cell 3 1%N [10%N; 20%N; 30%N] mem_empty = Done tt m1 ∧
    RetrieveFront_all (length [10%N; 20%N; 30%N]) 1%N m1 = Done cells m2 ∧
    length cells = length [10%N; 20%N; 30%N] ∧
    (∀ i c v, cells !! i = Some c -> [10%N; 20%N; 30%N] !! i = Some v ->
              get_value c m2 = Done v m2) ∧
    is_list m2 1%N [].
Proof.
  apply (PushBack_all_RetrieveFront_all stale_cell 3 mem_empty 1%N [10%N; 20%N; 30%N]).
  - concrete_is_list NULL.
  - reflexivity.
  - simpl. lia.
Defined.

Lemma Free_releases_header_witness :
  ∃ m', Free 3 1%N mem_5_10_20 = Done tt m' ∧
        m' !! 1%N = None ∧
        (∀ a, a ≠ 1%N -> a ∉ [(4%N, 5%N); (2%N, 10%N); (3%N, 20%N)].*1 ->
              m' !! a = mem_5_10_20 !! a).
Proof.
  apply (Free_releases_header 3 mem_5_10_20 1%N [(4%N, 5%N); (2%N, 10%N); (3%N, 20%N)]).
  - concrete_is_list 4%N.
  - simpl. lia.
Defined.

Lemma Free_leaves_last_cell_witness :
  ∃ m', Free 2 1%N mem_5_10_20 = Done tt m' ∧
        m' !! 1%N = None ∧
        (∀ a, a ∈ [(4%N, 5%N); (2%N, 10%N)].*1 -> m' !! a = None) ∧
        m' !! 3%N = Some (OCell (mkCell 20%N NULL)).
Proof.
  apply (Free_leaves_last_cell 2 mem_5_10_20 1%N [(4%N, 5%N); (2%N, 10%N)] 3%N 20%N).
  - concrete_is_list 4%N.
  - simpl. lia.
Defined.

Lemma Pprint_prints_cells_in_order_witness :
  Pprint 3 1%N mem_5_10_20 =
  Done (mkPrintf (String.append "List size: %d" newline)
          [AInt (Z.of_nat (length [(4%N, 5%N); (2%N, 10%N); (3%N, 20%N)]))]
        :: mkPrintf "[" []
        :: printed_cells 0 [(4%N, 5%N); (2%N, 10%N); (3%N, 20%N)]) mem_5_10_20.
Proof.
  apply (Pprint_prints_cells_in_order 3 mem_5_10_20 1%N
           [(4%N, 5%N); (2%N, 10%N); (3%N, 20%N)]).
  - concrete_is_list 4%N.
  - reflexivity.
  - simpl. lia.
Defined.

Lemma Push_all_size_and_order_witness :
  ∃ m' cs, Push_all stale_cell 3 1%N [AtBack 10%N; AtBack 20%N; AtFront 5%N] mem_empty
           = Done tt m' ∧
           is_list m' 1%N cs ∧
           length cs = length [AtBack 10%N; AtBack 20%N; AtFront 5%N] ∧
           cs.*2 = pushed [] [AtBack 10%N; AtBack 20%N; AtFront 5%N] ∧
           Empty 1%N m'
           = Done (bool_decide ([AtBack 10%N; AtBack 20%N; AtFront 5%N] = [])) m'.
Proof.
  apply (Push_all_size_and_order stale_cell 3 mem_empty 1%N
           [AtBack 10%N; AtBack 20%N; AtFront 5%N]).
  - concrete_is_list NULL.
  - reflexivity.
  - simpl. lia.
Defined.

Lemma PushFront_prepends_witness :
  ∃ m', PushFront stale_cell 1%N 55%N mem_5_10_20 = Done tt m' ∧
        is_list m' 1%N ((fresh_addr mem_5_10_20, 55%N)
                        :: [(4%N, 5%N); (2%N, 10%N); (3%N, 20%N)]).
Proof.
  apply (PushFront_prepends stale_cell mem_5_10_20 1%N
           [(4%N, 5%N); (2%N, 10%N); (3%N, 20%N)] 55%N).
  - concrete_is_list 4%N.
  - reflexivity.
Defined.

Lemma PushBack_appends_witness :
  ∃ m', PushBack stale_cell 3 1%N 55%N mem_5_10_20 = Done tt m' ∧
        is_list m' 1%N ([(4%N, 5%N); (2%N, 10%N); (3%N, 20%N)]
                        ++ [(fresh_addr mem_5_10_20, 55%N)]) ∧
        (∀ a, a ≠ 1%N -> a ≠ fresh_addr mem_5_10_20 ->
              a ≠ last_addr [(4%N, 5%N); (2%N, 10%N); (3%N, 20%N)] ->
              m' !! a = mem_5_10_20 !! a).
Proof.
  apply (PushBack_appends stale_cell 3 mem_5_10_20 1%N
           [(4%N, 5%N); (2%N, 10%N); (3%N, 20%N)] 55%N).
  - concrete_is_list 4%N.
  - reflexivity.
  - simpl. lia.
Defined.

Lemma GetAt_returns_cell_at_index_witness :
  GetAt 3 1%N (Z.of_nat 1) mem_5_10_20 = Done 2%N mem_5_10_20 ∧
  2%N ≠ NULL ∧
  get_value 2%N mem_5_10_20 = Done 10%N mem_5_10_20.
Proof.
  apply (GetAt_returns_cell_at_index 3 mem_5_10_20 1%N
           [(4%N, 5%N); (2%N, 10%N); (3%N, 20%N)] 1 2%N 10%N).
  - concrete_is_list 4%N.
  - reflexivity.
  - simpl. lia.
  - reflexivity.
Defined.

Lemma GetAt_TAIL_is_last_witness :
  GetAt 3 1%N LIST_TAIL mem_5_10_20 = Done 3%N mem_5_10_20 ∧
  GetAt 3 1%N (Z.of_nat (length ([(4%N, 5%N); (2%N, 10%N)] ++ [(3%N, 20%N)])) - 1)
    mem_5_10_20 = Done 3%N mem_5_10_20.
Proof.
  apply (GetAt_TAIL_is_last 3 mem_5_10_20 1%N [(4%N, 5%N); (2%N, 10%N)] 3%N 20%N).
  - concrete_is_list 4%N.
  - reflexivity.
  - simpl. lia.
Defined.

Lemma InsertAt_links_inside_witness :
  ∃ m', InsertAt stale_cell 3 1%N (Z.of_nat (length (@nil (ptr * ptr)) + 1)) 55%N
          mem_5_10_20 = Done tt m' ∧
        is_list m' 1%N ([] ++ (4%N, 5%N) :: (fresh_addr mem_5_10_20, 55%N)
                           :: (2%N, 10%N) :: [(3%N, 20%N)]).
Proof.
  apply (InsertAt_links_inside stale_cell 3 mem_5_10_20 1%N
           [] 4%N 5%N 2%N 10%N [(3%N, 20%N)] 55%N).
  - concrete_is_list 4%N.
  - reflexivity.
  - simpl. lia.
Defined.

Lemma InsertAt_TAIL_goes_before_last_witness :
  ∃ m', InsertAt stale_cell 3 1%N LIST_TAIL 55%N mem_5_10_20 = Done tt m' ∧
        is_list m' 1%N ([(4%N, 5%N)]
                        ++ [(2%N, 10%N); (fresh_addr mem_5_10_20, 55%N); (3%N, 20%N)]).
Proof.
  apply (InsertAt_TAIL_goes_before_last stale_cell 3 mem_5_10_20 1%N
           [(4%N, 5%N)] 2%N 10%N 3%N 20%N 55%N).
  - concrete_is_list 4%N.
  - reflexivity.
  - simpl. lia.
Defined.

Lemma InsertAt_rejected_leaks_cell_witness :
  InsertAt stale_cell 3 1%N 7 55%N mem_5_10_20 =
  Done tt (<[fresh_addr mem_5_10_20 := OCell (mkCell 55%N NULL)]> mem_5_10_20) ∧
  is_list (<[fresh_addr mem_5_10_20 := OCell (mkCell 55%N NULL)]> mem_5_10_20) 1%N
    [(4%N, 5%N); (2%N, 10%N); (3%N, 20%N)].
Proof.
  apply (InsertAt_rejected_leaks_cell stale_cell 3 mem_5_10_20 1%N
           [(4%N, 5%N); (2%N, 10%N); (3%N, 20%N)] 7 55%N).
  - concrete_is_list 4%N.
  - reflexivity.
  - unfold LIST_TAIL, INT64_MAX. lia.
  - right. simpl. lia.
Defined.

Lemma InsertAt_keeps_invariant_witness :
  ∃ m', InsertAt stale_cell 3 1%N LIST_TAIL 55%N mem_5_10_20 = Done tt m' ∧
        invariant m' 1%N.
Proof.
  apply (InsertAt_keeps_invariant stale_cell 3 mem_5_10_20 1%N
           [(4%N, 5%N); (2%N, 10%N); (3%N, 20%N)] LIST_TAIL 55%N).
  - concrete_is_list 4%N.
  - reflexivity.
  - simpl. lia.
Defined.

Lemma RemoveAt_out_of_range_unchanged_witness :
  RemoveAt 3 1%N 3 mem_5_10_20 = Done tt mem_5_10_20.
Proof.
  apply (RemoveAt_out_of_range_unchanged 3 mem_5_10_20 1%N
           [(4%N, 5%N); (2%N, 10%N); (3%N, 20%N)] 3).
  - concrete_is_list 4%N.
  - reflexivity.
  - unfold LIST_TAIL, INT64_MAX. lia.
  - right. simpl. lia.
Defined.

Lemma RemoveAt_unlinks_without_resizing_witness :
  ∃ m' h,
    RemoveAt 3 1%N (Z.of_nat (length (@nil (ptr * ptr)) + 1)) mem_5_10_20 = Done tt m' ∧
    m' !! 1%N = Some (OList (mkList h
                  (Z.of_nat (length ([] ++ (4%N, 5%N) :: (2%N, 10%N) :: [(3%N, 20%N)]))))) ∧
    chain m' h ([] ++ (4%N, 5%N) :: [(3%N, 20%N)]) ∧
    m' !! 2%N = None.
Proof.
  apply (RemoveAt_unlinks_without_resizing 3 mem_5_10_20 1%N
           [] 4%N 5%N 2%N 10%N [(3%N, 20%N)]).
  - concrete_is_list 4%N.
  - reflexivity.
  - simpl. lia.
Defined.

Lemma RetrieveBack_unlinks_last_witness :
  ∃ m', RetrieveBack 3 1%N mem_5_10_20 = Done 3%N m' ∧
        is_list m' 1%N ([(4%N, 5%N)] ++ [(2%N, 10%N)]) ∧
        3%N ≠ NULL ∧
        m' !! 3%N = Some (OCell (mkCell 20%N NULL)).
Proof.
  apply (RetrieveBack_unlinks_last 3 mem_5_10_20 1%N [(4%N, 5%N)] 2%N 10%N 3%N 20%N).
  - concrete_is_list 4%N.
  - reflexivity.
  - simpl. lia.
Defined.

Lemma PushBack_RetrieveBack_round_trip_witness :
  ∃ m' x, (_ <- PushBack stale_cell 3 1%N 55%N ; RetrieveBack 3 1%N) mem_5_10_20
          = Done x m' ∧
          get_value x m' = Done 55%N m' ∧
          is_list m' 1%N ((4%N, 5%N) :: [(2%N, 10%N); (3%N, 20%N)]).
Proof.
  apply (PushBack_RetrieveBack_round_trip stale_cell 3 mem_5_10_20 1%N
           (4%N, 5%N) [(2%N, 10%N); (3%N, 20%N)] 55%N).
  - concrete_is_list 4%N.
  - reflexivity.
  - simpl. lia.
Defined.

Lemma Reserve_links_n_cells_witness :
  let list := fresh_addr (∅ : mem) in
  let m1 := <[list := OList (stale_list ∅)]> (∅ : mem) in
  ∃ m' h q cs,
    Reserve stale_cell stale_list 2 3 ∅ = Done list m' ∧
    m' !! list = Some (OList (mkList h (wrap32 3))) ∧
    lseg m' h q cs ∧
    length cs = Z.to_nat 3 ∧
    cs.*2 = value (stale_cell m1) :: replicate (Z.to_nat (3 - 1)) NULL ∧
    ∃ m0, q = next (stale_cell m0).
Proof.
  apply (Reserve_links_n_cells stale_cell stale_list 2 3 ∅).
  - lia.
  - simpl. lia.
Defined.

Lemma Reserve_zero_filled_well_formed_witness :
  ∃ m' cs,
    Reserve zeroed_cell stale_list 2 3 ∅ = Done (fresh_addr (∅ : mem)) m' ∧
    is_list m' (fresh_addr (∅ : mem)) cs ∧
    cs.*2 = replicate (Z.to_nat 3) NULL.
Proof.
  apply (Reserve_zero_filled_well_formed zeroed_cell stale_list 2 3 ∅).
  - intros m0. reflexivity.
  - lia.
  - simpl. lia.
Defined.

Lemma Reserve_zero_keeps_allocating_witness :
  Reserve stale_cell stale_list 5 0 ∅ = OutOfFuel.
Proof.
  apply (Reserve_zero_keeps_allocating stale_cell stale_list 5 ∅).
  reflexivity.
Defined.

Lemma DryNulls_header_as_allocated_witness :
  ∃ m', DryNulls stale_cell stale_list 0 1%N mem_empty
        = Done (fresh_addr mem_empty) m' ∧
        m' !! fresh_addr mem_empty = Some (OList (stale_list mem_empty)).
Proof.
  apply (DryNulls_header_as_allocated stale_cell stale_list 0 mem_empty 1%N).
  concrete_is_list NULL.
Defined.

Lemma DryNulls_keeps_non_absent_values_witness :
  ∃ m' cs',
    DryNulls stale_cell zeroed_list 5 1%N mem_with_nulls
    = Done (fresh_addr mem_with_nulls) m' ∧
    is_list m' (fresh_addr mem_with_nulls) cs' ∧
    cs'.*2 = filter (λ v, v ≠ NULL)
               [(2%N, 11%N); (3%N, NULL); (4%N, 12%N); (5%N, NULL); (6%N, 13%N)].*2 ∧
    m' !! 1%N = None.
Proof.
  apply (DryNulls_keeps_non_absent_values stale_cell zeroed_list 5 mem_with_nulls 1%N
           [(2%N, 11%N); (3%N, NULL); (4%N, 12%N); (5%N, NULL); (6%N, 13%N)]).
  - concrete_is_list 2%N.
  - reflexivity.
  - simpl. lia.
  - reflexivity.
Defined.
